(** * ArticleProcessor: clause stripping, condensation and synonym substitution

    A shallow embedding of [ArticleProcessor] (src/main/main.py) and the
    properties of its text pipeline.

    Python strings are sequences of Unicode code points, and [len], slicing
    and [startswith] count code points; a string is therefore modelled as a
    list of code points.  The tokenizer (jieba) is an external capability and
    enters as an interface. *)

From Stdlib Require Import List NArith Arith Bool Lia.
From Stdlib Require Import Permutation Sorted.
From Stdlib Require String Ascii.
Import ListNotations.
Import String.StringSyntax.
Delimit Scope string_scope with string.

Set Implicit Arguments.

(* ------------------------------------------------------------------ *)
(** ** Strings *)

Module Str.

(** A Unicode code point. *)
Definition char := N.

(** A Python [str]. *)
Definition str := list char.

Definition eqb_char (a b : char) : bool := N.eqb a b.

Fixpoint eqb (s t : str) : bool :=
  match s, t with
  | [], [] => true
  | a :: s', b :: t' => eqb_char a b && eqb s' t'
  | _, _ => false
  end.

(** [x in xs] for a list of strings. *)
Fixpoint mem (x : str) (xs : list str) : bool :=
  match xs with
  | [] => false
  | y :: ys => eqb x y || mem x ys
  end.

(** [''.join(xs)]. *)
Definition join (xs : list str) : str := List.concat xs.

(** *** Reading source literals

    The literals of the source file are UTF-8; [py] decodes the bytes of a
    literal into the code points Python sees. *)

Definition byte_of (a : Ascii.ascii) : N := Ascii.N_of_ascii a.

Fixpoint bytes_of (s : String.string) : list N :=
  match s with
  | String.EmptyString => []
  | String.String a s' => byte_of a :: bytes_of s'
  end.

(** [pending] continuation bytes are still expected for the code point
    accumulated in [acc]. *)
Fixpoint utf8_decode (pending : nat) (acc : N) (bs : list N) : str :=
  match bs with
  | [] => []
  | b :: bs' =>
      match pending with
      | S (S k) => utf8_decode (S k) (acc * 64 + N.land b 63) bs'
      | S O => (acc * 64 + N.land b 63) :: utf8_decode 0 0 bs'
      | O =>
          if b <? 128 then b :: utf8_decode 0 0 bs'
          else if b <? 224 then utf8_decode 1 (N.land b 31) bs'
          else if b <? 240 then utf8_decode 2 (N.land b 15) bs'
          else utf8_decode 3 (N.land b 7) bs'
      end
  end%N.

Definition py (s : String.string) : str := utf8_decode 0 0%N (bytes_of s).

Arguments py s%_string.

(** A one-character literal as a code point. *)
Definition ch (s : String.string) : char := hd 0%N (py s).

Arguments ch s%_string.

(** Truthiness of a string: [if s]. *)
Definition nonempty (s : str) : bool :=
  match s with
  | [] => false
  | _ :: _ => true
  end.

(** *** Whitespace, [str.strip] and [str.split]

    [str.isspace] on one code point (CPython's [_PyUnicode_IsWhitespace]). *)
Definition isspace (c : char) : bool :=
  ((9 <=? c) && (c <=? 13) || (28 <=? c) && (c <=? 32)
   || (c =? 133) || (c =? 160) || (c =? 5760)
   || (8192 <=? c) && (c <=? 8202)
   || (c =? 8232) || (c =? 8233) || (c =? 8239) || (c =? 8287)
   || (c =? 12288))%N.

Fixpoint lstrip (s : str) : str :=
  match s with
  | [] => []
  | c :: s' => if isspace c then lstrip s' else s
  end.

Definition rstrip (s : str) : str := rev (lstrip (rev s)).

(** [s.strip()]. *)
Definition strip (s : str) : str := rstrip (lstrip s).

Definition newline : char := 10%N.

(** [s.split('\n')], with [cur] the piece being read. *)
Fixpoint split_nl_from (cur : str) (s : str) : list str :=
  match s with
  | [] => [cur]
  | c :: s' =>
      if eqb_char c newline then cur :: split_nl_from [] s'
      else split_nl_from (cur ++ [c]) s'
  end.

Definition split_nl (s : str) : list str := split_nl_from [] s.

(** ['\n'.join(xs)]. *)
Fixpoint join_nl (xs : list str) : str :=
  match xs with
  | [] => []
  | [x] => x
  | x :: xs' => x ++ newline :: join_nl xs'
  end.

(** [s.startswith(prefix)] at the head of [s]. *)
Fixpoint is_prefix (p s : str) : bool :=
  match p, s with
  | [], _ => true
  | a :: p', b :: s' => eqb_char a b && is_prefix p' s'
  | _ :: _, [] => false
  end.

(** [text.startswith(p, i)] for [i >= 0]: false once [i] is past the end of
    [text], also for an empty [p]. *)
Definition startswith (text p : str) (i : nat) : bool :=
  (i <=? length text) && is_prefix p (skipn i text).

End Str.

Import Str.


(* ------------------------------------------------------------------ *)
(** ** Exceptions *)

Inductive exn : Type :=
| IndexError
| OSError
| UnicodeDecodeError.

(** The outcome of a call that may raise. *)
Inductive result (A : Type) : Type :=
| Ok (a : A)
| Raised (e : exn).

Arguments Ok {A} a.
Arguments Raised {A} e.

Definition bind {A B : Type} (m : result A) (k : A -> result B) : result B :=
  match m with
  | Ok a => k a
  | Raised e => Raised e
  end.

Notation "x <- m ;; k" := (bind m (fun x => k))
  (at level 61, m at next level, right associativity).
Notation "' pat <- m ;; k" := (bind m (fun x => match x with pat => k end))
  (at level 61, pat pattern, m at next level, right associativity).

(** A [for] loop whose body may raise, threading the loop state. *)
Fixpoint for_each {S A : Type} (body : S -> A -> result S) (xs : list A)
  (st : S) : result S :=
  match xs with
  | [] => Ok st
  | x :: xs' => st' <- body st x ;; for_each body xs' st'
  end.

(* ------------------------------------------------------------------ *)
(** ** The synonym table

    [self.synonyms] is a [defaultdict(list)]: a dict from the original term
    to the list of its replacements.  A Python dict keeps its keys in
    insertion order, and [sorted] is stable, so the table is an association
    list in insertion order, one entry per key. *)

Definition SynonymTable := list (str * list str).

Fixpoint lookup (k : str) (t : SynonymTable) : option (list str) :=
  match t with
  | [] => None
  | (k', vs) :: t' => if eqb k k' then Some vs else lookup k t'
  end.

(** [word in self.synonyms]. *)
Definition contains (k : str) (t : SynonymTable) : bool :=
  match lookup k t with
  | Some _ => true
  | None => false
  end.

(** [self.synonyms.keys()]. *)
Definition keys (t : SynonymTable) : list str := map fst t.

(** [self.synonyms[orig].append(replace)]. *)
Fixpoint append_synonym (orig replace : str) (t : SynonymTable)
  : SynonymTable :=
  match t with
  | [] => [(orig, [replace])]
  | (k, vs) :: t' =>
      if eqb orig k then (k, vs ++ [replace]) :: t'
      else (k, vs) :: append_synonym orig replace t'
  end.

(** [self.synonyms[k][0]]; an absent key reads the default, an empty list,
    and indexing an empty list raises. *)
Definition first_replacement (k : str) (t : SynonymTable) : result str :=
  match lookup k t with
  | Some (r :: _) => Ok r
  | Some [] => Raised IndexError
  | None => Raised IndexError
  end.

(** Stable insertion into a list sorted by descending length: [x] goes before
    the first element that is not longer than it. *)
Fixpoint insert_desc (x : str) (l : list str) : list str :=
  match l with
  | [] => [x]
  | y :: l' => if length x <? length y then y :: insert_desc x l' else x :: l
  end.

(** [sorted(l, key=lambda x: len(x), reverse=True)]: descending length, equal
    lengths in their original order. *)
Definition sorted_by_len_desc (l : list str) : list str :=
  fold_right insert_desc [] l.

(* ------------------------------------------------------------------ *)
(** ** Loading the dictionary file *)

(** What opening and iterating the file does: [open] raises, or the file
    yields [lines] and then ends, or raises after them. *)
Inductive dict_source : Type :=
| Unopenable (e : exn)
| Opened (lines : list str) (failure : option exn).

(** [re.split(r'\s+', line, 1)]: cut at the first run of whitespace. *)
Fixpoint split_ws1_from (cur : str) (s : str) : list str :=
  match s with
  | [] => [cur]
  | c :: s' =>
      if isspace c then [cur; lstrip s'] else split_ws1_from (cur ++ [c]) s'
  end.

Definition split_ws1 (s : str) : list str := split_ws1_from [] s.

(** The body of the [for line in f] loop. *)
Definition load_line (t : SynonymTable) (line : str) : SynonymTable :=
  let line := strip line in
  if nonempty line then
    match split_ws1 line with
    | [orig; replace] => append_synonym orig replace t
    | _ => t
    end
  else t.

(** The [with open(...)] block: the table as it stands when the block is
    left, and how it is left. *)
Definition load_block (src : dict_source) (t : SynonymTable)
  : SynonymTable * result unit :=
  match src with
  | Unopenable e => (t, Raised e)
  | Opened lines failure =>
      (fold_left load_line lines t,
       match failure with
       | None => Ok tt
       | Some e => Raised e
       end)
  end.

(** An error dialog, [messagebox.showerror], with the exception it reports. *)
Inductive dialog : Type :=
| showerror (e : exn).

(** [load_synonyms]: [except Exception] turns any exception of the block into
    an error dialog; the method returns normally either way. *)
Definition load_synonyms (src : dict_source) (t : SynonymTable)
  : SynonymTable * list dialog :=
  match load_block src t with
  | (t', Ok _) => (t', [])
  | (t', Raised e) => (t', [showerror e])
  end.

Record ArticleProcessor : Type := {
  synonyms : SynonymTable;
  synonym_freq : N;
}.

(** [_init_jieba]: the words registered with the tokenizer, each with the
    configured frequency. *)
Definition _init_jieba (self : ArticleProcessor) : list (str * N) :=
  map (fun word => (word, synonym_freq self)) (keys (synonyms self)).

(** [ArticleProcessor(synonym_path, synonym_freq)]: the outcome of the
    constructor, the dialogs shown and the vocabulary registered. *)
Definition ArticleProcessor_init (src : dict_source) (freq : N)
  : result ArticleProcessor * list dialog * list (str * N) :=
  let '(t, shown) := load_synonyms src [] in
  let self := {| synonyms := t; synonym_freq := freq |} in
  (Ok self, shown, _init_jieba self).

(* ------------------------------------------------------------------ *)
(** ** The tokenizer

    [jieba.lcut] and [jieba.posseg.cut], after initialisation. *)

Class Tokenizer : Type := {
  lcut : str -> list str;
  cut : str -> list (str * str);
}.

(** The contract of the tokenizer: segmentation is a partition of the text,
    and every token carries a tag. *)
Class Lossless (T : Tokenizer) : Prop := {
  lcut_join : forall text, join (lcut text) = text;
  cut_join : forall text, join (map fst (cut text)) = text;
  cut_tagged : forall text, Forall (fun wp => snd wp <> []) (cut text);
}.

(** A tokenizer that keeps a non-empty text as one noun. *)
Definition whole_text : Tokenizer := {|
  lcut text := if nonempty text then [text] else [];
  cut text := if nonempty text then [(text, py "n")] else [];
|}.

(** A tokenizer that cuts every text into the given tokens. *)
Definition fixed_cut (tokens : list str) : Tokenizer := {|
  lcut _ := tokens;
  cut _ := map (fun w => (w, py "x")) tokens;
|}.

(* ------------------------------------------------------------------ *)
(** ** The filler-clause pattern

    The fragment of Python's regular expressions that the pattern of
    [_condense_sentence] uses, with the matching order of a backtracking
    matcher: a lazy [.*?] tries the shortest span first, an optional [c?]
    tries to take the character first, alternatives are tried in order. *)

Inductive atom : Type :=
| Lit (c : char)
| DotStarLazy
| OptLit (c : char).

(** [match_here p s]: the length of the match of the sequence [p] at the head
    of [s] that backtracking finds first, if there is one.  [.] matches any
    character but a newline. *)
Fixpoint match_here (p : list atom) (s : str) : option nat :=
  match p with
  | [] => Some 0
  | Lit c :: p' =>
      match s with
      | x :: s' =>
          if eqb_char x c then option_map S (match_here p' s') else None
      | [] => None
      end
  | OptLit c :: p' =>
      match s with
      | x :: s' =>
          if eqb_char x c then
            match match_here p' s' with
            | Some n => Some (S n)
            | None => match_here p' s
            end
          else match_here p' s
      | [] => match_here p' s
      end
  | DotStarLazy :: p' =>
      (fix lazy (s : str) : option nat :=
         match match_here p' s with
         | Some n => Some n
         | None =>
             match s with
             | x :: s' =>
                 if eqb_char x newline then None else option_map S (lazy s')
             | [] => None
             end
         end) s
  end.

(** [a|b|c] at the head of [s]: the first alternative that matches. *)
Fixpoint match_alts (alts : list (list atom)) (s : str) : option nat :=
  match alts with
  | [] => None
  | p :: alts' =>
      match match_here p s with
      | Some n => Some n
      | None => match_alts alts' s
      end
  end.

(** [re.sub(pattern, '', s)]: one pass from the left; a match is deleted and
    the scan resumes behind it, otherwise the character is copied.  [skip]
    counts the characters of the current match still to delete.  An empty
    match deletes nothing. *)
Fixpoint sub_delete (alts : list (list atom)) (skip : nat) (s : str) : str :=
  match s with
  | [] => []
  | c :: s' =>
      match skip with
      | S k => sub_delete alts k s'
      | O =>
          match match_alts alts s with
          | Some (S n) => sub_delete alts n s'
          | _ => c :: sub_delete alts 0 s'
          end
      end
  end.

Definition lits (s : str) : list atom := map Lit s.

(** [r'当.*?时，?|尽管.*?，?|虽然.*?但是']. *)
Definition filler_pattern : list (list atom) :=
  [ lits (py "当") ++ [DotStarLazy] ++ lits (py "时") ++ [OptLit (ch "，")];
    lits (py "尽管") ++ [DotStarLazy; OptLit (ch "，")];
    lits (py "虽然") ++ [DotStarLazy] ++ lits (py "但是") ].

(** The first statement of [_condense_sentence]. *)
Definition strip_clauses (sentence : str) : str :=
  sub_delete filler_pattern 0 sentence.

(* ------------------------------------------------------------------ *)
(** ** Condensing a sentence *)

Definition connectors : list str := [py "但是"; py "然而"].

Definition content_tags : list str := [py "n"; py "v"; py "a"].

(** The first loop of [_condense_sentence]; [pos[0]] raises on an empty
    tag. *)
Fixpoint select_kept (words : list (str * str)) (kept_words : list str)
  : result (list str) :=
  match words with
  | [] => Ok kept_words
  | (word, pos) :: rest =>
      match pos with
      | [] => Raised IndexError
      | c :: _ =>
          if mem [c] content_tags && (1 <? length word) then
            select_kept rest (kept_words ++ [word])
          else if mem word connectors then
            select_kept rest (kept_words ++ [word])
          else select_kept rest kept_words
      end
  end.

(** The body of the second loop, at index [i]. *)
Definition dedup_step (kept_words : list str) (condensed : list str)
  (i : nat) : list str :=
  if (0 <? i) && mem (nth (i - 1) kept_words []) connectors then
    condensed ++ [nth i kept_words []]
  else if negb (mem (nth i kept_words []) condensed) then
    condensed ++ [nth i kept_words []]
  else condensed.

(** [condensed] after the first [n] rounds of [for i in range(...)]. *)
Definition dedup_upto (kept_words : list str) (n : nat) : list str :=
  fold_left (dedup_step kept_words) (seq 0 n) [].

(** [condensed] when the loop over [range(len(kept_words))] ends. *)
Definition dedup (kept_words : list str) : list str :=
  dedup_upto kept_words (length kept_words).

(** The output-building step: the early return and the second loop. *)
Definition build_output (kept_words : list str) : str :=
  match kept_words with
  | [] => []
  | _ :: _ => join (dedup kept_words)
  end.

Section Pipeline.

Context {T : Tokenizer}.

Definition _condense_sentence (sentence : str) : result str :=
  let sentence := strip_clauses sentence in
  kept_words <- select_kept (cut sentence) [] ;;
  Ok (build_output kept_words).

(* ------------------------------------------------------------------ *)
(** ** Replacing words *)

(** The inner [for orig in sorted(...)] loop with its [break]: the first term
    that [text] has at [current_index]. *)
Fixpoint scan (text : str) (current_index : nat) (terms : list str)
  : option str :=
  match terms with
  | [] => None
  | orig :: rest =>
      if startswith text orig current_index then Some orig
      else scan text current_index rest
  end.

(** The body of the outer loop, on the state [(replaced, current_index)]. *)
Definition replace_step (t : SynonymTable) (text : str)
  (st : list str * nat) (word : str) : result (list str * nat) :=
  let '(replaced, current_index) := st in
  if contains word t then
    match scan text current_index (sorted_by_len_desc (keys t)) with
    | Some orig =>
        r <- first_replacement orig t ;;
        Ok (replaced ++ [r], current_index + length orig)
    | None =>
        r <- first_replacement word t ;;
        Ok (replaced ++ [r], current_index + length word)
    end
  else Ok (replaced ++ [word], current_index + length word).

(** The list [replaced] when the loop over [words] ends. *)
Definition replaced_tokens (t : SynonymTable) (text : str) (words : list str)
  : result (list str) :=
  st <- for_each (replace_step t text) words ([], 0) ;;
  Ok (fst st).

Definition _replace_words (t : SynonymTable) (text : str) : result str :=
  replaced <- replaced_tokens t text (lcut text) ;;
  Ok (join replaced).

(* ------------------------------------------------------------------ *)
(** ** Processing a text *)

Definition terminal_marks : list str := [py "。"; py "！"; py "？"].

Definition is_terminal (c : char) : bool := mem [c] terminal_marks.

(** [re.split(r'([。！？])', para)]: the text pieces and the marks between
    them, alternating; [cur] is the piece being read. *)
Fixpoint re_split_from (cur : str) (s : str) : list str :=
  match s with
  | [] => [cur]
  | c :: s' =>
      if is_terminal c then cur :: [c] :: re_split_from [] s'
      else re_split_from (cur ++ [c]) s'
  end.

Definition re_split (para : str) : list str := re_split_from [] para.

(** The state of the loop over the segments of a paragraph. *)
Record seg_state : Type := {
  new_sentences : list str;
  buffer : list str;
  contrast_pairs : list (str * str);
}.

(** The body of [for seg in sentences]. *)
Definition seg_step (t : SynonymTable) (st : seg_state) (seg : str)
  : result seg_state :=
  if mem seg terminal_marks then
    match buffer st with
    | [] => Ok st
    | _ :: _ =>
        let orig_sentence := strip (join (buffer st)) in
        condensed <- _condense_sentence orig_sentence ;;
        replaced <- _replace_words t condensed ;;
        Ok {| new_sentences := new_sentences st ++ [replaced ++ seg];
              buffer := [];
              contrast_pairs :=
                if nonempty orig_sentence && nonempty replaced then
                  contrast_pairs st ++ [(orig_sentence ++ seg, replaced ++ seg)]
                else contrast_pairs st |}
    end
  else
    Ok {| new_sentences := new_sentences st;
          buffer := buffer st ++ [seg];
          contrast_pairs := contrast_pairs st |}.

(** The body of [for para in paragraphs], on the state
    [(processed_paragraphs, contrast_pairs)]. *)
Definition para_step (t : SynonymTable)
  (st : list str * list (str * str)) (para : str)
  : result (list str * list (str * str)) :=
  let '(processed_paragraphs, pairs) := st in
  if nonempty (strip para) then
    st' <- for_each (seg_step t) (re_split para)
             {| new_sentences := []; buffer := []; contrast_pairs := pairs |} ;;
    Ok (processed_paragraphs ++ [join (new_sentences st')], contrast_pairs st')
  else Ok (processed_paragraphs ++ [[]], pairs).

(** What [process] returns: the text alone, or the text with the pairs. *)
Inductive processed : Type :=
| Text (processed_text : str)
| TextAndPairs (processed_text : str) (pairs : list (str * str)).

Definition process (t : SynonymTable) (text : str) (contrast : bool)
  : result processed :=
  let paragraphs := split_nl text in
  '(processed_paragraphs, pairs) <- for_each (para_step t) paragraphs ([], []) ;;
  let processed_text := join_nl processed_paragraphs in
  if contrast then Ok (TextAndPairs processed_text pairs)
  else Ok (Text processed_text).

End Pipeline.

Definition text_of (p : processed) : str :=
  match p with
  | Text s => s
  | TextAndPairs s _ => s
  end.

Definition pairs_of (p : processed) : option (list (str * str)) :=
  match p with
  | Text _ => None
  | TextAndPairs _ ps => Some ps
  end.

(* ------------------------------------------------------------------ *)
(** ** The vocabulary of the specification *)

(** Condenser, selection rule: noun, verb or adjective of at least two
    characters, or one of the two connectors. *)
Definition keep_rule (wp : str * str) : Prop :=
  ((exists c rest, snd wp = c :: rest /\ In [c] content_tags)
   /\ 2 <= length (fst wp))
  \/ fst wp = py "但是" \/ fst wp = py "然而".

(** Condenser, selection: [kept_by_rule words kept] when [kept] holds, in
    order, the surface strings of exactly the tokens that the rule keeps. *)
Inductive kept_by_rule : list (str * str) -> list str -> Prop :=
| kept_nil : kept_by_rule [] []
| kept_keep : forall wp rest kept,
    keep_rule wp -> kept_by_rule rest kept ->
    kept_by_rule (wp :: rest) (fst wp :: kept)
| kept_drop : forall wp rest kept,
    ~ keep_rule wp -> kept_by_rule rest kept ->
    kept_by_rule (wp :: rest) kept.

(** Condenser, output building: the token at index [i] of the kept list
    comes right after a connector. *)
Definition after_connector (kept_words : list str) (i : nat) : Prop :=
  exists j c, i = S j /\ nth_error kept_words j = Some c /\ In c connectors.

(** SynonymTable, [lookupFirst]. *)
Definition lookupFirst (term : str) (t : SynonymTable) : option str :=
  match lookup term t with
  | Some (r :: _) => Some r
  | _ => None
  end.

(** SynonymTable, [allTermsByDescendingLength]: a listing of the terms of the
    table in which no term comes before a longer one. *)
Definition by_descending_length (t : SynonymTable) (terms : list str) : Prop :=
  (forall k, In k terms <-> In k (keys t))
  /\ StronglySorted (fun a b => length b <= length a) terms.

(** [o] is the first of [terms] that [text] has exactly at position [i]. *)
Definition first_at (text : str) (i : nat) (terms : list str) (o : str)
  : Prop :=
  exists before after,
    terms = before ++ o :: after
    /\ startswith text o i = true
    /\ Forall (fun x => startswith text x i = false) before.

(** No term of [terms] is in [text] at position [i]. *)
Definition none_at (text : str) (i : nat) (terms : list str) : Prop :=
  Forall (fun x => startswith text x i = false) terms.

(** [o] is a longest term of the table that [text] has at position [i]. *)
Definition longest_at (t : SynonymTable) (text : str) (i : nat) (o : str)
  : Prop :=
  In o (keys t) /\ startswith text o i = true
  /\ forall o', In o' (keys t) -> startswith text o' i = true ->
                length o' <= length o.

(** SynonymSubstitutor: [walk t terms text i tokens out] when walking
    [tokens] with the cursor at [i] emits [out]. *)
Inductive walk (t : SynonymTable) (terms : list str) (text : str)
  : nat -> list str -> list str -> Prop :=
| walk_done : forall i, walk t terms text i [] []
| walk_term : forall i w ws o r out,
    In w (keys t) ->
    first_at text i terms o ->
    lookupFirst o t = Some r ->
    walk t terms text (i + length o) ws out ->
    walk t terms text i (w :: ws) (r :: out)
| walk_fallback : forall i w ws r out,
    In w (keys t) ->
    none_at text i terms ->
    lookupFirst w t = Some r ->
    walk t terms text (i + length w) ws out ->
    walk t terms text i (w :: ws) (r :: out)
| walk_plain : forall i w ws out,
    ~ In w (keys t) ->
    walk t terms text (i + length w) ws out ->
    walk t terms text i (w :: ws) (w :: out).

(** Every term of the table has a replacement. *)
Definition has_replacements (t : SynonymTable) : Prop :=
  Forall (fun kv => snd kv <> []) t.

(** A character that is neither a terminal mark nor a line break. *)
Definition plain (c : char) : Prop := is_terminal c = false /\ c <> newline.

(** Every term of the table has a first replacement, and it holds neither
    a terminal mark nor a line break. *)
Definition plain_replacements (t : SynonymTable) : Prop :=
  Forall (fun kv => exists r rest, snd kv = r :: rest /\ Forall plain r) t.

(** The number of terminal marks in a string. *)
Definition count_marks (s : str) : nat := length (filter is_terminal s).

(** The sentences of a paragraph: each run of text that a terminal mark
    ends, with that mark; [cur] is the run being read. *)
Fixpoint sentences_from (cur : str) (s : str) : list (str * char) :=
  match s with
  | [] => []
  | c :: s' =>
      if is_terminal c then (cur, c) :: sentences_from [] s'
      else sentences_from (cur ++ [c]) s'
  end.

Definition sentences (para : str) : list (str * char) := sentences_from [] para.

(** The text behind the last terminal mark of a paragraph. *)
Fixpoint remainder_from (cur : str) (s : str) : str :=
  match s with
  | [] => cur
  | c :: s' =>
      if is_terminal c then remainder_from [] s'
      else remainder_from (cur ++ [c]) s'
  end.

(** The dictionary source fails at the I/O level. *)
Definition io_failure (src : dict_source) : Prop :=
  match src with
  | Unopenable _ => True
  | Opened _ (Some _) => True
  | Opened _ None => False
  end.

(** The exception that opening or reading the source raises, if any. *)
Definition raised_by (src : dict_source) : option exn :=
  match src with
  | Unopenable e => Some e
  | Opened _ failure => failure
  end.

(** The lines read before the source ended or failed. *)
Definition lines_read (src : dict_source) : list str :=
  match src with
  | Unopenable _ => []
  | Opened lines _ => lines
  end.

(** Pipeline construction fails: the constructor raises. *)
Definition construction_fails (src : dict_source) (freq : N) : Prop :=
  exists e, fst (fst (ArticleProcessor_init src freq)) = Raised e.

Section Vocabulary.

Context {T : Tokenizer}.

(** Condenser then SynonymSubstitutor, on one trimmed sentence. *)
Definition transform (t : SynonymTable) (orig : str) : result str :=
  condensed <- _condense_sentence orig ;;
  _replace_words t condensed.

(** One sentence handled, as a step on the state of the segment loop. *)
Definition sentence_step (t : SynonymTable) (st : seg_state)
  (s : str * char) : result seg_state :=
  let orig := strip (fst s) in
  replaced <- transform t orig ;;
  Ok {| new_sentences := new_sentences st ++ [replaced ++ [snd s]];
        buffer := [];
        contrast_pairs :=
          if nonempty orig && nonempty replaced then
            contrast_pairs st ++ [(orig ++ [snd s], replaced ++ [snd s])]
          else contrast_pairs st |}.

(** The contrast pairs of one sentence: one pair when the trimmed text and
    the transformed text are both non-empty, none otherwise. *)
Definition sentence_pairs (t : SynonymTable) (s : str * char)
  (ps : list (str * str)) : Prop :=
  exists replaced,
    transform t (strip (fst s)) = Ok replaced
    /\ ps = if nonempty (strip (fst s)) && nonempty replaced
            then [(strip (fst s) ++ [snd s], replaced ++ [snd s])]
            else [].

(** The output of one sentence: the transformed text and the mark. *)
Definition sentence_output (t : SynonymTable) (s : str * char) (out : str)
  : Prop :=
  exists replaced,
    transform t (strip (fst s)) = Ok replaced /\ out = replaced ++ [snd s].

(** The output of one paragraph: the outputs of its sentences, joined. *)
Definition paragraph_output (t : SynonymTable) (para : str) (out : str)
  : Prop :=
  exists outs,
    Forall2 (sentence_output t) (sentences para) outs /\ out = join outs.

End Vocabulary.

(** The tables and texts of the examples. *)
Definition ai_table : SynonymTable :=
  [(py "人工智能", [py "AI"]); (py "智能", [py "smart"])].


Definition failing_source : dict_source :=
  Opened [py "人工智能 AI"] (Some UnicodeDecodeError).

(* ------------------------------------------------------------------ *)
(** ** Further vocabulary *)

(** [s] is [l] with some of its elements left out. *)
Inductive subsequence {A : Type} : list A -> list A -> Prop :=
| subsequence_nil : subsequence [] []
| subsequence_keep : forall x s l,
    subsequence s l -> subsequence (x :: s) (x :: l)
| subsequence_skip : forall x s l,
    subsequence s l -> subsequence s (x :: l).

(** A string of whitespace only. *)
Definition blank (s : str) : Prop := Forall (fun c => isspace c = true) s.

(** A string with no whitespace in it. *)
Definition whitespace_free (s : str) : Prop :=
  Forall (fun c => isspace c = false) s.

(** A string that does not start with whitespace. *)
Definition no_lead_space (s : str) : Prop :=
  match s with
  | [] => True
  | c :: _ => isspace c = false
  end.

(** A string with whitespace at neither end. *)
Definition trimmed (s : str) : Prop :=
  no_lead_space s /\ no_lead_space (rev s).

(** An entry as the loader writes it: a term without whitespace, and at
    least one replacement, each non-empty with whitespace at neither end. *)
Definition entry_well_formed (kv : str * list str) : Prop :=
  fst kv <> [] /\ whitespace_free (fst kv)
  /\ snd kv <> [] /\ Forall (fun r => r <> [] /\ strip r = r) (snd kv).

(** The characters with which the alternatives of the filler pattern
    start. *)
Definition clause_lead (c : char) : Prop :=
  c = ch "当" \/ c = ch "尽" \/ c = ch "虽".

(** [rest] without the comma it starts with, if any. *)
Definition drop_comma (rest : str) : str :=
  match rest with
  | c :: rest' => if eqb_char c (ch "，") then rest' else rest
  | [] => []
  end.



(** [c] occurs in the first replacement of a term of the table. *)
Definition in_first_replacement (t : SynonymTable) (c : char) : Prop :=
  exists k r rest, In (k, r :: rest) t /\ In c r.

(** The terminal marks of a string, in order. *)
Definition marks_of (s : str) : str := filter is_terminal s.

(** A contrast pair: a non-empty trimmed sentence and a non-empty
    transformed sentence, each followed by the same terminal mark. *)
Definition pair_shape (p : str * str) : Prop :=
  exists orig replaced m,
    fst p = orig ++ [m] /\ snd p = replaced ++ [m]
    /\ is_terminal m = true
    /\ orig <> [] /\ strip orig = orig /\ replaced <> [].

(* ------------------------------------------------------------------ *)
(** * Properties *)

(** ** Strings *)

Lemma eqb_eq (s t : str) : eqb s t = true <-> s = t.
Proof.
  revert t; induction s as [|a s IH]; intros [|b t]; simpl;
    try (split; [discriminate | congruence]); [tauto |].
  unfold eqb_char. rewrite andb_true_iff, N.eqb_eq, IH.
  split; [intros [-> ->]; reflexivity | intros [= -> ->]; auto].
Qed.

Lemma eqb_refl (s : str) : eqb s s = true.
Proof. apply eqb_eq; reflexivity. Qed.

Lemma eqb_neq (s t : str) : eqb s t = false <-> s <> t.
Proof.
  rewrite <- eqb_eq. destruct (eqb s t); split; congruence.
Qed.

Lemma mem_In (x : str) (xs : list str) : mem x xs = true <-> In x xs.
Proof.
  induction xs as [|y ys IH]; simpl; [split; [discriminate | tauto] |].
  rewrite orb_true_iff, eqb_eq, IH. split; intros [H|H]; auto.
Qed.

Lemma mem_not_In (x : str) (xs : list str) : mem x xs = false <-> ~ In x xs.
Proof.
  rewrite <- mem_In. destruct (mem x xs); split; congruence.
Qed.

(** ** The output-building loop of the Condenser *)

Lemma dedup_upto_S (kept : list str) (n : nat) :
  dedup_upto kept (S n) = dedup_step kept (dedup_upto kept n) n.
Proof.
  unfold dedup_upto. rewrite seq_S, fold_left_app. reflexivity.
Qed.

Lemma after_connector_test (kept : list str) (i : nat) :
  i < length kept ->
  (0 <? i) && mem (nth (i - 1) kept []) connectors = true
  <-> after_connector kept i.
Proof.
  intros Hi. rewrite andb_true_iff, Nat.ltb_lt, mem_In. split.
  - intros [Hpos Hc]. destruct i as [|j]; [lia |].
    exists j, (nth j kept []). split; [reflexivity | split].
    + apply nth_error_nth'. lia.
    + replace (S j - 1) with j in Hc by lia. exact Hc.
  - intros (j & c & -> & Hj & Hc). split; [lia |].
    replace (S j - 1) with j by lia.
    rewrite (nth_error_nth _ _ _ Hj). exact Hc.
Qed.

(** One round of the loop, by cases. *)
Lemma dedup_round (kept : list str) (i : nat) (w : str) :
  nth_error kept i = Some w ->
  (after_connector kept i ->
   dedup_upto kept (S i) = dedup_upto kept i ++ [w])
  /\ (~ after_connector kept i -> ~ In w (dedup_upto kept i) ->
      dedup_upto kept (S i) = dedup_upto kept i ++ [w])
  /\ (~ after_connector kept i -> In w (dedup_upto kept i) ->
      dedup_upto kept (S i) = dedup_upto kept i).
Proof.
  intros Hw.
  assert (Hi : i < length kept) by (apply nth_error_Some; congruence).
  pose proof (after_connector_test kept Hi) as Htest.
  rewrite dedup_upto_S. unfold dedup_step.
  rewrite (nth_error_nth _ _ _ Hw).
  destruct ((0 <? i) && mem (nth (i - 1) kept []) connectors) eqn:E.
  - assert (after_connector kept i) by (apply Htest; reflexivity).
    repeat split; intros; try reflexivity; contradiction.
  - assert (~ after_connector kept i)
      by (intros H; apply Htest in H; congruence).
    repeat split; intros; try contradiction.
    + assert (mem w (dedup_upto kept i) = false) as ->
        by (apply mem_not_In; assumption).
      reflexivity.
    + assert (mem w (dedup_upto kept i) = true) as ->
        by (apply mem_In; assumption).
      reflexivity.
Qed.

(** C4: walking the kept tokens left to right, the token at index [i] is
    appended to the output when its predecessor in the kept list is
    "但是" or "然而", whatever the output holds; any other token is
    appended iff no equal string is in the output accumulated so far.  The
    loop starts from an empty output and its result is joined without a
    separator.  ["问题","但是","问题"] gives "问题但是问题" and
    ["电脑","运行","电脑"] gives "电脑运行". *)
Theorem dedup_appends_after_connector_or_new :
  (forall (kept : list str) (i : nat) (w : str),
      nth_error kept i = Some w ->
      (after_connector kept i ->
       dedup_upto kept (S i) = dedup_upto kept i ++ [w])
      /\ (~ after_connector kept i ->
          (~ In w (dedup_upto kept i) ->
           dedup_upto kept (S i) = dedup_upto kept i ++ [w])
          /\ (In w (dedup_upto kept i) ->
              dedup_upto kept (S i) = dedup_upto kept i)))
  /\ (forall kept : list str,
         dedup_upto kept 0 = []
         /\ build_output kept = join (dedup_upto kept (length kept)))
  /\ build_output [py "问题"; py "但是"; py "问题"] = py "问题但是问题"
  /\ build_output [py "电脑"; py "运行"; py "电脑"] = py "电脑运行".
Proof.
  split; [| split; [| split; reflexivity]].
  all: cycle 1.
  - intros kept. split; [reflexivity |].
    destruct kept; reflexivity.
  - intros kept i w Hw.
    destruct (dedup_round kept i Hw) as (H1 & H2 & H3).
    split; [exact H1 | intros Hn; split; auto].
Qed.

Lemma dedup_appends_after_connector_or_new_witness :
  nth_error [py "问题"; py "但是"; py "问题"] 2 = Some (py "问题")
  /\ dedup_upto [py "问题"; py "但是"; py "问题"] 3
     = dedup_upto [py "问题"; py "但是"; py "问题"] 2 ++ [py "问题"].
Proof.
  split; [reflexivity |].
  refine (proj1 (proj1 dedup_appends_after_connector_or_new
                   [py "问题"; py "但是"; py "问题"] 2 (py "问题") eq_refl) _).
  exists 1, (py "但是"). repeat split. left; reflexivity.
Defined.

(** C10: the forced append looks at the predecessor in the kept list, not in
    the output.  When the token at index [i] is a connector that is itself
    dropped as a duplicate, the token behind it is still appended, right
    behind what the output held before the connector; so
    ["问题","但是","问题","但是","问题"] gives "问题但是问题问题", where
    "问题" is repeated with no connector in between. *)
Theorem dedup_connector_dropped_still_forces :
  (forall (kept : list str) (i : nat) (c w : str),
      nth_error kept i = Some c ->
      In c connectors ->
      nth_error kept (S i) = Some w ->
      dedup_upto kept (S (S i)) = dedup_upto kept (S i) ++ [w]
      /\ (~ after_connector kept i -> In c (dedup_upto kept i) ->
          dedup_upto kept (S (S i)) = dedup_upto kept i ++ [w]))
  /\ build_output [py "问题"; py "但是"; py "问题"; py "但是"; py "问题"]
     = py "问题但是问题问题"
  /\ dedup [py "问题"; py "但是"; py "问题"; py "但是"; py "问题"]
     = [py "问题"; py "但是"; py "问题"; py "问题"].
Proof.
  split; [| split; reflexivity].
  intros kept i c w Hc Hconn Hw.
  destruct (dedup_round kept (S i) Hw) as (Happ & _).
  assert (Hafter : after_connector kept (S i)) by (exists i, c; auto).
  split; [exact (Happ Hafter) |].
  intros Hn Hin.
  destruct (dedup_round kept i Hc) as (_ & _ & Hdrop).
  rewrite (Happ Hafter), (Hdrop Hn Hin). reflexivity.
Qed.

Lemma dedup_connector_dropped_still_forces_witness :
  let kept := [py "问题"; py "但是"; py "问题"; py "但是"; py "问题"] in
  nth_error kept 3 = Some (py "但是")
  /\ In (py "但是") connectors
  /\ nth_error kept 4 = Some (py "问题")
  /\ dedup_upto kept 5 = dedup_upto kept 4 ++ [py "问题"].
Proof.
  intros kept. split; [reflexivity |].
  split; [left; reflexivity |]. split; [reflexivity |].
  apply (proj1 (proj1 dedup_connector_dropped_still_forces
                  kept 3 (py "但是") (py "问题") eq_refl
                  (or_introl eq_refl) eq_refl)).
Defined.

(** ** The selection loop of the Condenser *)

Lemma keep_rule_test (word : str) (c : char) (rest : str) :
  mem [c] content_tags && (1 <? length word) || mem word connectors = true
  <-> keep_rule (word, c :: rest).
Proof.
  unfold keep_rule; simpl fst; simpl snd.
  rewrite orb_true_iff, andb_true_iff, Nat.ltb_lt, !mem_In. split.
  - intros [[Hc Hl] | Hw].
    + left. split; [exists c, rest; auto | lia].
    + right. destruct Hw as [<- | [<- | []]]; auto.
  - intros [[(c' & rest' & [= <- <-] & Hc) Hl] | Hw].
    + left. split; [assumption | lia].
    + right. destruct Hw as [-> | ->]; [left | right; left]; reflexivity.
Qed.

Lemma select_kept_cons (word : str) (c : char) (rest : str)
  (words : list (str * str)) (acc : list str) :
  select_kept ((word, c :: rest) :: words) acc
  = if mem [c] content_tags && (1 <? length word)
    then select_kept words (acc ++ [word])
    else if mem word connectors then select_kept words (acc ++ [word])
         else select_kept words acc.
Proof. reflexivity. Qed.

Lemma select_kept_by_rule (words : list (str * str)) :
  Forall (fun wp => snd wp <> []) words ->
  forall acc, exists kept,
    select_kept words acc = Ok (acc ++ kept) /\ kept_by_rule words kept.
Proof.
  induction 1 as [|[word pos] words Hpos _ IH]; intros acc.
  - exists []. rewrite app_nil_r. split; [reflexivity | constructor].
  - simpl in Hpos. destruct pos as [|c rest]; [congruence |].
    pose proof (keep_rule_test word c rest) as Htest.
    rewrite select_kept_cons.
    destruct (mem [c] content_tags && (1 <? length word)) eqn:E1;
      [| destruct (mem word connectors) eqn:E2].
    + destruct (IH (acc ++ [word])) as (kept & Hk & Hr).
      exists (word :: kept). rewrite Hk, <- app_assoc. split; [reflexivity |].
      apply (kept_keep (wp := (word, c :: rest))); [| exact Hr].
      apply Htest. reflexivity.
    + destruct (IH (acc ++ [word])) as (kept & Hk & Hr).
      exists (word :: kept). rewrite Hk, <- app_assoc. split; [reflexivity |].
      apply (kept_keep (wp := (word, c :: rest))); [| exact Hr].
      apply Htest. reflexivity.
    + destruct (IH acc) as (kept & Hk & Hr).
      exists kept. split; [exact Hk |].
      apply kept_drop; [| exact Hr].
      intros Hrule. apply Htest in Hrule. discriminate.
Qed.

(** C6: a tagged token is kept iff the first character of its tag is n, v
    or a and its surface string has at least two characters, or its surface
    string is "但是" or "然而" whatever its tag and length.  The tokens are
    those of the stripped sentence, every one carrying a tag; the kept ones
    go on, in order, to the output-building step. *)
Theorem condenser_keeps_by_rule :
  forall (T : Tokenizer) (sentence : str),
    Forall (fun wp => snd wp <> []) (cut (strip_clauses sentence)) ->
    exists kept,
      kept_by_rule (cut (strip_clauses sentence)) kept
      /\ select_kept (cut (strip_clauses sentence)) [] = Ok kept
      /\ _condense_sentence sentence = Ok (build_output kept).
Proof.
  intros T sentence Htags.
  destruct (select_kept_by_rule Htags []) as (kept & Hk & Hr).
  simpl in Hk. exists kept. split; [exact Hr | split; [exact Hk |]].
  unfold _condense_sentence. rewrite Hk. reflexivity.
Qed.

Lemma condenser_keeps_by_rule_witness :
  exists kept,
    kept_by_rule
      (@cut (fixed_cut [py "电脑"; py "但是"; py "很"])
         (strip_clauses (py "电脑但是很"))) kept
    /\ select_kept
         (@cut (fixed_cut [py "电脑"; py "但是"; py "很"])
            (strip_clauses (py "电脑但是很"))) [] = Ok kept
    /\ @_condense_sentence (fixed_cut [py "电脑"; py "但是"; py "很"])
         (py "电脑但是很") = Ok (build_output kept).
Proof.
  apply (@condenser_keeps_by_rule
           (fixed_cut [py "电脑"; py "但是"; py "很"]) (py "电脑但是很")).
  repeat constructor; discriminate.
Defined.

(** ** The filler-clause pattern *)

Example strip_time_clause :
  strip_clauses (py "当天气晴朗时，他出门了。") = py "他出门了。".
Proof. reflexivity. Qed.

Example strip_paired_construction :
  strip_clauses (py "虽然下雨但是他出门了") = py "他出门了".
Proof. reflexivity. Qed.

Lemma match_here_lit (c : char) (p : list atom) (x : char) (s : str) :
  match_here (Lit c :: p) (x :: s)
  = if eqb_char x c then option_map S (match_here p s) else None.
Proof. reflexivity. Qed.

Lemma match_here_lazy (p : list atom) (s : str) :
  match_here (DotStarLazy :: p) s
  = match match_here p s with
    | Some n => Some n
    | None =>
        match s with
        | x :: s' =>
            if eqb_char x newline then None
            else option_map S (match_here (DotStarLazy :: p) s')
        | [] => None
        end
    end.
Proof. destruct s; reflexivity. Qed.

Lemma match_here_opt_last (c : char) (s : str) :
  match_here [OptLit c] s
  = Some (match s with
          | x :: _ => if eqb_char x c then 1 else 0
          | [] => 0
          end).
Proof.
  destruct s as [|x s]; [reflexivity |].
  simpl. destruct (eqb_char x c); reflexivity.
Qed.

Lemma match_alts_cons (p : list atom) (alts : list (list atom)) (s : str) :
  match_alts (p :: alts) s
  = match match_here p s with
    | Some n => Some n
    | None => match_alts alts s
    end.
Proof. reflexivity. Qed.

(** The second alternative at "尽管": two characters, and a comma when it
    comes next. *)
Lemma concessive_alternative (rest : str) :
  match_here (lits (py "尽管") ++ [DotStarLazy; OptLit (ch "，")])
    (py "尽管" ++ rest)
  = Some (match rest with
          | c :: _ => if eqb_char c (ch "，") then 3 else 2
          | [] => 2
          end).
Proof.
  change (lits (py "尽管") ++ [DotStarLazy; OptLit (ch "，")])
    with (Lit (ch "尽") :: Lit (ch "管") :: DotStarLazy :: [OptLit (ch "，")]).
  change (py "尽管" ++ rest) with (ch "尽" :: ch "管" :: rest).
  rewrite !match_here_lit, match_here_lazy, match_here_opt_last.
  change (eqb_char (ch "尽") (ch "尽")) with true.
  change (eqb_char (ch "管") (ch "管")) with true.
  destruct rest as [|c rest]; [reflexivity |].
  destruct (eqb_char c (ch "，")); reflexivity.
Qed.

(** *** The scan of [re.sub] *)

Lemma sub_delete_skip (alts : list (list atom)) (s : str) :
  forall skip, sub_delete alts skip s = sub_delete alts 0 (skipn skip s).
Proof.
  induction s as [|c s IH]; intros [|k]; try reflexivity.
  cbn [sub_delete skipn]. apply IH.
Qed.

(** A match at the head is deleted and the scan resumes behind it. *)
Lemma sub_delete_match (alts : list (list atom)) (s : str) (n : nat) :
  match_alts alts s = Some (S n) ->
  sub_delete alts 0 s = sub_delete alts 0 (skipn (S n) s).
Proof.
  destruct s as [|c s]; intros Hm; [reflexivity |].
  cbn [sub_delete skipn]. rewrite Hm. apply sub_delete_skip.
Qed.

(** Without a match at the head the character there is copied. *)
Lemma sub_delete_copy (alts : list (list atom)) (c : char) (s : str) :
  match_alts alts (c :: s) = None ->
  sub_delete alts 0 (c :: s) = c :: sub_delete alts 0 s.
Proof. intros Hm. cbn [sub_delete]. rewrite Hm. reflexivity. Qed.

(** *** The three alternatives *)

(** The lazy [.*?] before a literal stops at the first occurrence of the
    literal's first character, when the rest of the pattern matches behind
    it and no line break comes before it. *)
Lemma match_here_lazy_upto (x : char) (p : list atom) (mid rest : str)
  (n : nat) :
  Forall (fun c => c <> x /\ c <> newline) mid ->
  match_here p rest = Some n ->
  match_here (DotStarLazy :: Lit x :: p) (mid ++ x :: rest)
  = Some (length mid + S n).
Proof.
  intros Hmid Hp.
  induction Hmid as [|c mid [Hx Hnl] _ IH]; rewrite match_here_lazy.
  - cbn [app]. rewrite match_here_lit. unfold eqb_char.
    rewrite N.eqb_refl, Hp. reflexivity.
  - cbn [app]. rewrite match_here_lit. unfold eqb_char.
    destruct (N.eqb_spec c x) as [|_]; [contradiction |].
    destruct (N.eqb_spec c newline) as [|_]; [contradiction |].
    rewrite IH. reflexivity.
Qed.

(** The first alternative: from "当" through the first "时", and a comma
    that follows it. *)
Lemma time_clause_alternative (mid rest : str) :
  Forall (fun c => c <> ch "时" /\ c <> newline) mid ->
  match_alts filler_pattern (py "当" ++ mid ++ py "时" ++ rest)
  = Some (length mid + 2
          + match rest with
            | c :: _ => if eqb_char c (ch "，") then 1 else 0
            | [] => 0
            end).
Proof.
  intros Hmid. unfold filler_pattern. rewrite match_alts_cons.
  change (lits (py "当") ++ [DotStarLazy] ++ lits (py "时") ++ [OptLit (ch "，")])
    with (Lit (ch "当") :: DotStarLazy :: Lit (ch "时") :: [OptLit (ch "，")]).
  change (py "当" ++ mid ++ py "时" ++ rest)
    with (ch "当" :: mid ++ ch "时" :: rest).
  rewrite match_here_lit.
  change (eqb_char (ch "当") (ch "当")) with true.
  erewrite match_here_lazy_upto;
    [| exact Hmid | apply match_here_opt_last].
  cbn [option_map]. f_equal. lia.
Qed.

(** The third alternative: from "虽然" through the first "但是", when no
    "但" comes before it. *)
Lemma paired_construction_alternative (mid rest : str) :
  Forall (fun c => c <> ch "但" /\ c <> newline) mid ->
  match_alts filler_pattern (py "虽然" ++ mid ++ py "但是" ++ rest)
  = Some (length mid + 4).
Proof.
  intros Hmid. unfold filler_pattern. rewrite !match_alts_cons.
  change (lits (py "当") ++ [DotStarLazy] ++ lits (py "时") ++ [OptLit (ch "，")])
    with (Lit (ch "当") :: DotStarLazy :: Lit (ch "时") :: [OptLit (ch "，")]).
  change (lits (py "尽管") ++ [DotStarLazy; OptLit (ch "，")])
    with (Lit (ch "尽") :: Lit (ch "管") :: DotStarLazy :: [OptLit (ch "，")]).
  change (lits (py "虽然") ++ [DotStarLazy] ++ lits (py "但是"))
    with (Lit (ch "虽") :: Lit (ch "然") :: DotStarLazy
            :: Lit (ch "但") :: [Lit (ch "是")]).
  change (py "虽然" ++ mid ++ py "但是" ++ rest)
    with (ch "虽" :: ch "然" :: mid ++ ch "但" :: ch "是" :: rest).
  rewrite !match_here_lit.
  change (eqb_char (ch "虽") (ch "当")) with false.
  change (eqb_char (ch "虽") (ch "尽")) with false.
  change (eqb_char (ch "虽") (ch "虽")) with true.
  change (eqb_char (ch "然") (ch "然")) with true.
  assert (Hclose : match_here [Lit (ch "是")] (ch "是" :: rest) = Some 1)
    by reflexivity.
  erewrite match_here_lazy_upto; [| exact Hmid | exact Hclose].
  cbn [option_map]. f_equal. lia.
Qed.

(** The pattern at "尽管": two characters, and a comma when it comes
    next. *)
Lemma concessive_match (rest : str) :
  match_alts filler_pattern (py "尽管" ++ rest)
  = Some (match rest with
          | c :: _ => if eqb_char c (ch "，") then 3 else 2
          | [] => 2
          end).
Proof.
  unfold filler_pattern.
  rewrite !match_alts_cons, concessive_alternative.
  change (lits (py "当") ++ [DotStarLazy] ++ lits (py "时") ++ [OptLit (ch "，")])
    with (Lit (ch "当") :: DotStarLazy :: Lit (ch "时") :: [OptLit (ch "，")]).
  change (py "尽管" ++ rest) with (ch "尽" :: ch "管" :: rest).
  rewrite match_here_lit.
  change (eqb_char (ch "尽") (ch "当")) with false.
  reflexivity.
Qed.

Lemma skipn_length_app (a l : str) (m : nat) :
  skipn (length a + m) (a ++ l) = skipn m l.
Proof. induction a as [|c a IH]; [reflexivity | exact IH]. Qed.

(** Stripping deletes a time clause, with the comma behind it, and goes on
    behind it. *)
Lemma strip_time_clause_span (mid rest : str) :
  Forall (fun c => c <> ch "时" /\ c <> newline) mid ->
  strip_clauses (py "当" ++ mid ++ py "时" ++ rest)
  = strip_clauses (match rest with
                   | c :: rest' => if eqb_char c (ch "，") then rest' else rest
                   | [] => []
                   end).
Proof.
  intros Hmid. unfold strip_clauses.
  pose proof (time_clause_alternative rest Hmid) as Hm.
  replace (length mid + 2
           + match rest with
             | c :: _ => if eqb_char c (ch "，") then 1 else 0
             | [] => 0
             end)
    with (S (length mid
             + S match rest with
                 | c :: _ => if eqb_char c (ch "，") then 1 else 0
                 | [] => 0
                 end)) in Hm by lia.
  rewrite (sub_delete_match _ _ Hm).
  change (py "当" ++ mid ++ py "时" ++ rest)
    with (ch "当" :: mid ++ ch "时" :: rest).
  cbn [skipn]. rewrite skipn_length_app.
  destruct rest as [|c rest]; [reflexivity |].
  destruct (eqb_char c (ch "，")); reflexivity.
Qed.

(** Stripping deletes a paired construction through its "但是" and goes on
    behind it. *)
Lemma strip_paired_construction_span (mid rest : str) :
  Forall (fun c => c <> ch "但" /\ c <> newline) mid ->
  strip_clauses (py "虽然" ++ mid ++ py "但是" ++ rest) = strip_clauses rest.
Proof.
  intros Hmid. unfold strip_clauses.
  pose proof (paired_construction_alternative rest Hmid) as Hm.
  replace (length mid + 4) with (S (S (length mid + 2))) in Hm by lia.
  rewrite (sub_delete_match _ _ Hm).
  change (py "虽然" ++ mid ++ py "但是" ++ rest)
    with (ch "虽" :: ch "然" :: mid ++ ch "但" :: ch "是" :: rest).
  cbn [skipn]. rewrite skipn_length_app. reflexivity.
Qed.

(** C3, the concessive lead-in: in "尽管.*?，?" the comma is optional, so
    the lazy [.*?] never has to take a character.  At "尽管" the pattern
    matches those two characters, and a comma only when it comes right
    behind them; stripping goes on behind that, and the text up to a later
    comma stays.  On "尽管下雨，他出门了" only "尽管" is deleted, where
    deleting the lead-in through its comma would leave "他出门了". *)
Theorem strip_concessive_deletes_lead_word_only :
  (forall rest : str,
      match_alts filler_pattern (py "尽管" ++ rest)
      = Some (match rest with
              | c :: _ => if eqb_char c (ch "，") then 3 else 2
              | [] => 2
              end))
  /\ (forall rest : str,
         strip_clauses (py "尽管" ++ rest)
         = strip_clauses (match rest with
                          | c :: rest' =>
                              if eqb_char c (ch "，") then rest' else rest
                          | [] => []
                          end))
  /\ strip_clauses (py "尽管下雨，他出门了") = py "下雨，他出门了"
  /\ strip_clauses (py "尽管下雨，他出门了") <> py "他出门了".
Proof.
  split; [exact concessive_match | split; [| split]].
  - intros rest. unfold strip_clauses.
    pose proof (concessive_match rest) as Hm.
    destruct rest as [|c rest].
    + rewrite (sub_delete_match _ _ Hm). reflexivity.
    + destruct (eqb_char c (ch "，"));
        rewrite (sub_delete_match _ _ Hm); reflexivity.
  - reflexivity.
  - discriminate.
Qed.

(** ** The synonym table *)

Lemma lookup_In_keys (k : str) (t : SynonymTable) :
  contains k t = true <-> In k (keys t).
Proof.
  unfold contains, keys.
  induction t as [|[k' vs] t IH]; simpl; [split; [discriminate | tauto] |].
  destruct (eqb k k') eqn:E.
  - apply eqb_eq in E. subst. split; auto.
  - apply eqb_neq in E. rewrite IH. split; [auto | intros [H|H]; congruence].
Qed.

Lemma lookup_not_In_keys (k : str) (t : SynonymTable) :
  contains k t = false <-> ~ In k (keys t).
Proof.
  rewrite <- lookup_In_keys. destruct (contains k t); split; congruence.
Qed.

Lemma lookup_Some_In (k : str) (t : SynonymTable) (vs : list str) :
  lookup k t = Some vs -> In (k, vs) t.
Proof.
  induction t as [|[k' vs'] t IH]; simpl; [discriminate |].
  destruct (eqb k k') eqn:E.
  - apply eqb_eq in E. intros [= ->]. subst. auto.
  - auto.
Qed.

Lemma first_replacement_lookupFirst (k : str) (t : SynonymTable) (r : str) :
  first_replacement k t = Ok r <-> lookupFirst k t = Some r.
Proof.
  unfold first_replacement, lookupFirst.
  destruct (lookup k t) as [[|r' vs]|]; split; congruence.
Qed.

Lemma first_replacement_total (k : str) (t : SynonymTable) :
  has_replacements t -> In k (keys t) ->
  exists r, first_replacement k t = Ok r.
Proof.
  intros Hwf Hin. apply lookup_In_keys in Hin.
  unfold contains in Hin. unfold first_replacement.
  destruct (lookup k t) as [vs|] eqn:E; [| discriminate].
  apply lookup_Some_In in E.
  unfold has_replacements in Hwf. rewrite Forall_forall in Hwf.
  specialize (Hwf _ E). simpl in Hwf.
  destruct vs as [|r vs]; [congruence | eauto].
Qed.

(** ** Sorting the terms by descending length *)

Lemma insert_desc_In (x y : str) (l : list str) :
  In y (insert_desc x l) <-> y = x \/ In y l.
Proof.
  induction l as [|z l IH]; simpl; [intuition auto |].
  destruct (length x <? length z); simpl; rewrite ?IH; intuition auto.
Qed.

Lemma sorted_by_len_desc_In (y : str) (l : list str) :
  In y (sorted_by_len_desc l) <-> In y l.
Proof.
  induction l as [|x l IH]; simpl; [tauto |].
  rewrite insert_desc_In, IH. intuition auto.
Qed.

Lemma insert_desc_sorted (x : str) (l : list str) :
  StronglySorted (fun a b => length b <= length a) l ->
  StronglySorted (fun a b => length b <= length a) (insert_desc x l).
Proof.
  induction 1 as [|z l Hs IH Hz]; simpl.
  - repeat constructor.
  - destruct (length x <? length z) eqn:E.
    + apply Nat.ltb_lt in E. constructor; [exact IH |].
      rewrite Forall_forall in *. intros y Hy.
      apply insert_desc_In in Hy. destruct Hy as [-> | Hy]; [lia | auto].
    + apply Nat.ltb_ge in E. constructor; [constructor; assumption |].
      constructor; [exact E |].
      rewrite Forall_forall in *. intros y Hy. specialize (Hz _ Hy). lia.
Qed.

Lemma sorted_by_len_desc_sorted (l : list str) :
  StronglySorted (fun a b => length b <= length a) (sorted_by_len_desc l).
Proof.
  induction l as [|x l IH]; simpl; [constructor |].
  apply insert_desc_sorted, IH.
Qed.

Lemma sorted_keys_by_descending_length (t : SynonymTable) :
  by_descending_length t (sorted_by_len_desc (keys t)).
Proof.
  split; [intros k; apply sorted_by_len_desc_In |].
  apply sorted_by_len_desc_sorted.
Qed.

(** ** Matching a term at the cursor *)

Lemma is_prefix_app (p s : str) :
  is_prefix p s = true <-> exists r, s = p ++ r.
Proof.
  revert s; induction p as [|a p IH]; intros s; simpl.
  - split; [eauto | reflexivity].
  - destruct s as [|b s]; [split; [discriminate | intros [r [=]]] |].
    unfold eqb_char. rewrite andb_true_iff, N.eqb_eq, IH. split.
    + intros [-> [r ->]]. eauto.
    + intros [r [= -> ->]]. eauto.
Qed.

Lemma startswith_same_length (text o o' : str) (i : nat) :
  startswith text o i = true -> startswith text o' i = true ->
  length o = length o' -> o = o'.
Proof.
  unfold startswith. rewrite !andb_true_iff, !is_prefix_app.
  intros [_ [r Hr]] [_ [r' Hr']] Hlen.
  rewrite Hr in Hr'. clear Hr.
  revert o' Hlen Hr'. induction o as [|a o IH]; intros [|b o']; simpl;
    try discriminate; [reflexivity |].
  intros [= Hlen] [= -> Happ]. f_equal. auto.
Qed.

Lemma scan_first_at (text : str) (i : nat) (terms : list str) (o : str) :
  scan text i terms = Some o <-> first_at text i terms o.
Proof.
  unfold first_at. induction terms as [|x terms IH]; simpl.
  - split; [discriminate | intros ([|] & ? & [=] & _)].
  - destruct (startswith text x i) eqn:E.
    + split.
      * intros [= ->]. exists [], terms. auto.
      * intros ([|y before] & after & Heq & Hm & Hb); simpl in Heq.
        -- congruence.
        -- injection Heq as <- _. inversion Hb; congruence.
    + rewrite IH. split.
      * intros (before & after & -> & Hm & Hb).
        exists (x :: before), after. auto.
      * intros ([|y before] & after & Heq & Hm & Hb); simpl in Heq.
        -- congruence.
        -- injection Heq as <- ->. inversion Hb; eauto.
Qed.

Lemma scan_none_at (text : str) (i : nat) (terms : list str) :
  scan text i terms = None <-> none_at text i terms.
Proof.
  unfold none_at. induction terms as [|x terms IH]; simpl.
  - split; auto.
  - destruct (startswith text x i) eqn:E.
    + split; [discriminate | intros H; inversion H; congruence].
    + rewrite IH. split; [auto | intros H; inversion H; auto].
Qed.

(** In a listing by descending length, the first term found at the cursor is
    a longest term of the table there. *)
Lemma first_at_longest (t : SynonymTable) (terms : list str) (text : str)
  (i : nat) (o : str) :
  by_descending_length t terms -> first_at text i terms o ->
  longest_at t text i o.
Proof.
  intros [Hsame Hsorted] (before & after & -> & Hm & Hb).
  split; [apply Hsame, in_elt | split; [exact Hm |]].
  intros o' Hin Hm'. apply Hsame in Hin.
  apply in_app_or in Hin. destruct Hin as [Hin | [<- | Hin]].
  - rewrite Forall_forall in Hb. specialize (Hb _ Hin). congruence.
  - lia.
  - clear Hsame Hb. induction before as [|y before IH]; simpl in Hsorted.
    + inversion Hsorted as [|? ? _ Hall]; subst.
      rewrite Forall_forall in Hall. auto.
    + inversion Hsorted; auto.
Qed.

Lemma longest_at_unique (t : SynonymTable) (text : str) (i : nat)
  (o o' : str) :
  longest_at t text i o -> longest_at t text i o' -> o = o'.
Proof.
  intros (Hin & Hm & Hmax) (Hin' & Hm' & Hmax').
  apply (startswith_same_length text o o' i Hm Hm').
  specialize (Hmax _ Hin' Hm'). specialize (Hmax' _ Hin Hm). lia.
Qed.

(** The scan of the code finds what any listing by descending length
    finds. *)
Lemma scan_any_listing (t : SynonymTable) (terms : list str) (text : str)
  (i : nat) :
  by_descending_length t terms ->
  (forall o, scan text i (sorted_by_len_desc (keys t)) = Some o
             <-> first_at text i terms o)
  /\ (scan text i (sorted_by_len_desc (keys t)) = None
      <-> none_at text i terms).
Proof.
  intros Hterms.
  pose proof (sorted_keys_by_descending_length t) as Hcode.
  assert (Htransfer : forall l1 l2 o,
             by_descending_length t l1 -> by_descending_length t l2 ->
             first_at text i l1 o -> first_at text i l2 o).
  { intros l1 l2 o H1 H2 Hfirst.
    pose proof (first_at_longest H1 Hfirst) as Hlong.
    destruct (scan text i l2) as [o2|] eqn:E.
    - apply scan_first_at in E.
      rewrite (longest_at_unique Hlong (first_at_longest H2 E)). exact E.
    - apply scan_none_at in E. unfold none_at in E.
      rewrite Forall_forall in E.
      destruct Hlong as (Hin & Hm & _).
      apply (proj1 H2) in Hin. specialize (E _ Hin). congruence. }
  assert (Hnone : forall l1 l2,
             by_descending_length t l1 -> by_descending_length t l2 ->
             none_at text i l1 -> none_at text i l2).
  { intros l1 l2 [H1 _] [H2 _]. unfold none_at. rewrite !Forall_forall.
    intros H x Hx. apply H, H1, H2, Hx. }
  split.
  - intros o. rewrite scan_first_at. split; apply Htransfer; assumption.
  - rewrite scan_none_at. split; apply Hnone; assumption.
Qed.

(** ** The substitution loop *)

Section Substitution.

Context {T : Tokenizer}.

Lemma replace_step_walks (t : SynonymTable) (terms : list str) (text : str)
  (words : list str) :
  by_descending_length t terms ->
  forall acc i acc' i',
    for_each (replace_step t text) words (acc, i) = Ok (acc', i') ->
    exists out, walk t terms text i words out /\ acc' = acc ++ out.
Proof.
  intros Hterms. induction words as [|w ws IH]; intros acc i acc' i' Hrun.
  - injection Hrun as <- <-. exists []. rewrite app_nil_r.
    split; [constructor | reflexivity].
  - simpl in Hrun. unfold replace_step at 1 in Hrun.
    destruct (scan_any_listing text i Hterms) as [Hsome Hnone].
    destruct (contains w t) eqn:Ew.
    + apply lookup_In_keys in Ew.
      destruct (scan text i (sorted_by_len_desc (keys t))) as [o|] eqn:Es.
      * destruct (first_replacement o t) as [r|e] eqn:Er; [| discriminate].
        simpl in Hrun. apply IH in Hrun. destruct Hrun as (out & Hw & ->).
        exists (r :: out). rewrite <- app_assoc. split; [| reflexivity].
        apply walk_term with (o := o); auto.
        -- apply Hsome. reflexivity.
        -- apply first_replacement_lookupFirst, Er.
      * destruct (first_replacement w t) as [r|e] eqn:Er; [| discriminate].
        simpl in Hrun. apply IH in Hrun. destruct Hrun as (out & Hw & ->).
        exists (r :: out). rewrite <- app_assoc. split; [| reflexivity].
        apply walk_fallback; auto.
        -- apply Hnone. reflexivity.
        -- apply first_replacement_lookupFirst, Er.
    + apply lookup_not_In_keys in Ew.
      simpl in Hrun. apply IH in Hrun. destruct Hrun as (out & Hw & ->).
      exists (w :: out). rewrite <- app_assoc. split; [| reflexivity].
      apply walk_plain; auto.
Qed.

Lemma walk_runs (t : SynonymTable) (terms : list str) (text : str) :
  by_descending_length t terms ->
  forall i words out, walk t terms text i words out ->
  forall acc, exists i',
    for_each (replace_step t text) words (acc, i) = Ok (acc ++ out, i').
Proof.
  intros Hterms i words out Hwalk.
  induction Hwalk as [i | i w ws o r out Hin Hfirst Hr _ IH
                        | i w ws r out Hin Hnone Hr _ IH
                        | i w ws out Hin _ IH]; intros acc.
  - exists i. rewrite app_nil_r. reflexivity.
  - destruct (scan_any_listing text i Hterms) as [Hsome _].
    apply Hsome in Hfirst. apply lookup_In_keys in Hin.
    apply first_replacement_lookupFirst in Hr.
    destruct (IH (acc ++ [r])) as [i' Hrun]. exists i'.
    cbn [for_each]. unfold replace_step at 1.
    rewrite Hin, Hfirst, Hr. cbn [bind].
    rewrite Hrun, <- app_assoc. reflexivity.
  - destruct (scan_any_listing text i Hterms) as [_ Hscan].
    apply Hscan in Hnone. apply lookup_In_keys in Hin.
    apply first_replacement_lookupFirst in Hr.
    destruct (IH (acc ++ [r])) as [i' Hrun]. exists i'.
    cbn [for_each]. unfold replace_step at 1.
    rewrite Hin, Hnone, Hr. cbn [bind].
    rewrite Hrun, <- app_assoc. reflexivity.
  - apply lookup_not_In_keys in Hin.
    destruct (IH (acc ++ [w])) as [i' Hrun]. exists i'.
    cbn [for_each]. unfold replace_step at 1. rewrite Hin. cbn [bind].
    rewrite Hrun, <- app_assoc. reflexivity.
Qed.

Lemma replaced_tokens_walk (t : SynonymTable) (terms : list str) (text : str)
  (words out : list str) :
  by_descending_length t terms ->
  replaced_tokens t text words = Ok out <-> walk t terms text 0 words out.
Proof.
  intros Hterms. unfold replaced_tokens. split.
  - destruct (for_each (replace_step t text) words ([], 0)) as [[acc' i']|e]
      eqn:E; [| discriminate].
    simpl. intros [= <-].
    destruct (replace_step_walks text words Hterms _ _ E) as (out & Hw & ->).
    exact Hw.
  - intros Hw. destruct (walk_runs Hterms Hw []) as [i' Hrun].
    rewrite Hrun. reflexivity.
Qed.

(** With a replacement for every term, no round of the loop raises. *)
Lemma replace_loop_total (t : SynonymTable) (text : str) (words : list str) :
  has_replacements t ->
  forall st, exists st', for_each (replace_step t text) words st = Ok st'.
Proof.
  intros Hwf. induction words as [|w ws IH]; intros [acc i]; [simpl; eauto |].
  simpl. unfold replace_step at 1.
  destruct (contains w t) eqn:Ew; [| simpl; apply IH].
  apply lookup_In_keys in Ew.
  destruct (scan text i (sorted_by_len_desc (keys t))) as [o|] eqn:Es.
  - assert (Ho : In o (keys t)).
    { apply scan_first_at in Es. destruct Es as (b & a & Heq & _).
      apply sorted_by_len_desc_In. rewrite Heq. apply in_elt. }
    destruct (first_replacement_total o Hwf Ho) as [r ->]. simpl. apply IH.
  - destruct (first_replacement_total w Hwf Ew) as [r ->]. simpl. apply IH.
Qed.

Lemma replace_words_total (t : SynonymTable) (text : str) :
  has_replacements t -> exists s, _replace_words t text = Ok s.
Proof.
  intros Hwf. unfold _replace_words, replaced_tokens.
  destruct (replace_loop_total text (lcut text) Hwf ([], 0)) as [st ->].
  simpl. eauto.
Qed.

(** Tokens that are not terms of the table are copied. *)
Lemma replace_loop_copies (t : SynonymTable) (text : str) (words : list str) :
  Forall (fun w => contains w t = false) words ->
  forall acc i,
    for_each (replace_step t text) words (acc, i)
    = Ok (acc ++ words, i + length (join words)).
Proof.
  induction 1 as [|w ws Hw _ IH]; intros acc i; simpl.
  - rewrite app_nil_r, Nat.add_0_r. reflexivity.
  - unfold replace_step at 1. rewrite Hw. simpl. rewrite IH.
    rewrite <- app_assoc. unfold join. simpl. rewrite length_app.
    f_equal. f_equal. lia.
Qed.

Lemma Forall_join (Q : char -> Prop) (xs : list str) :
  Forall Q (join xs) <-> Forall (Forall Q) xs.
Proof.
  unfold join. induction xs as [|x xs IH]; simpl.
  - split; constructor.
  - rewrite Forall_app, IH. split.
    + intros [H1 H2]. constructor; assumption.
    + intros H. inversion H. auto.
Qed.

Lemma ai_table_example (rest : list str) :
  lcut (py "人工智能很强") = py "人工智能" :: rest ->
  join (lcut (py "人工智能很强")) = py "人工智能很强" ->
  _replace_words ai_table (py "人工智能很强") = Ok (py "AI很强").
Proof.
  intros Hcut Hjoin. rewrite Hcut in Hjoin.
  change (join (py "人工智能" :: rest)) with (py "人工智能" ++ join rest) in Hjoin.
  change (py "人工智能很强") with (py "人工智能" ++ py "很强") in Hjoin.
  apply app_inv_head in Hjoin.
  assert (Hplain : Forall (fun w => contains w ai_table = false) rest).
  { assert (Hchars : Forall (Forall (fun c => c = ch "很" \/ c = ch "强")) rest).
    { apply Forall_join. rewrite Hjoin.
      constructor; [left; reflexivity |].
      constructor; [right; reflexivity | constructor]. }
    apply Forall_impl with (2 := Hchars). intros w Hw.
    apply lookup_not_In_keys. simpl.
    intros [<- | [<- | []]]; inversion Hw as [|? ? [H|H] _]; discriminate. }
  unfold _replace_words, replaced_tokens. rewrite Hcut.
  change (for_each (replace_step ai_table (py "人工智能很强"))
            (py "人工智能" :: rest) ([], 0))
    with (for_each (replace_step ai_table (py "人工智能很强")) rest
            ([py "AI"], 4)).
  rewrite replace_loop_copies by exact Hplain. cbn [bind fst].
  change (join ([py "AI"] ++ rest)) with (py "AI" ++ join rest).
  rewrite Hjoin. reflexivity.
Qed.

End Substitution.

(** C1: [_replace_words] walks the tokens of the segmentation in order with a
    cursor that starts at 0.  A token that is a term of the table makes it
    scan the terms by descending length (in any order among terms of equal
    length) and, for the first term that the text has exactly at the cursor,
    emit that term's first replacement and advance by that term's length;
    when no term is there it emits the token's own first replacement and
    advances by the token's length; a token that is not a term is emitted
    unchanged and the cursor advances by its length.  With a replacement for
    every term the walk ends with a result.  With {"人工智能":"AI",
    "智能":"smart"} and "人工智能很强" cut with "人工智能" as one token the
    result is "AI很强". *)
Theorem substitute_walks_tokens_longest_first :
  (forall (T : Tokenizer) (t : SynonymTable) (terms : list str) (text : str),
      by_descending_length t terms ->
      (forall out,
          replaced_tokens t text (lcut text) = Ok out
          <-> walk t terms text 0 (lcut text) out)
      /\ (forall s,
             _replace_words t text = Ok s
             <-> exists out,
                 walk t terms text 0 (lcut text) out /\ s = join out)
      /\ (has_replacements t -> exists s, _replace_words t text = Ok s))
  /\ (forall (T : Tokenizer) (rest : list str),
         lcut (py "人工智能很强") = py "人工智能" :: rest ->
         join (lcut (py "人工智能很强")) = py "人工智能很强" ->
         _replace_words ai_table (py "人工智能很强") = Ok (py "AI很强")).
Proof.
  split; [| intros T rest; apply ai_table_example].
  intros T t terms text Hterms.
  split; [intros out; apply replaced_tokens_walk, Hterms | split].
  - intros s. unfold _replace_words.
    destruct (replaced_tokens t text (lcut text)) as [out|e] eqn:E; simpl.
    + apply (replaced_tokens_walk text (lcut text) out Hterms) in E.
      split.
      * intros [= <-]. eauto.
      * intros (out' & Hw & ->).
        apply (replaced_tokens_walk text (lcut text) out' Hterms) in Hw.
        apply (replaced_tokens_walk text (lcut text) out Hterms) in E.
        congruence.
    + split; [discriminate |].
      intros (out' & Hw & _).
      apply (replaced_tokens_walk text (lcut text) out' Hterms) in Hw.
      congruence.
  - apply replace_words_total.
Qed.

Lemma substitute_walks_tokens_longest_first_witness :
  by_descending_length ai_table [py "人工智能"; py "智能"]
  /\ walk ai_table [py "人工智能"; py "智能"] (py "人工智能很强") 0
       (@lcut (fixed_cut [py "人工智能"; py "很"; py "强"]) (py "人工智能很强"))
       [py "AI"; py "很"; py "强"]
  /\ @_replace_words (fixed_cut [py "人工智能"; py "很"; py "强"]) ai_table
       (py "人工智能很强") = Ok (py "AI很强").
Proof.
  assert (Hterms : by_descending_length ai_table [py "人工智能"; py "智能"]).
  { split; [intros k; reflexivity |].
    repeat constructor. }
  split; [exact Hterms | split].
  - apply (proj1 (proj1 substitute_walks_tokens_longest_first
                    (fixed_cut [py "人工智能"; py "很"; py "强"])
                    ai_table [py "人工智能"; py "智能"] (py "人工智能很强")
                    Hterms)).
    reflexivity.
  - apply (proj2 substitute_walks_tokens_longest_first
             (fixed_cut [py "人工智能"; py "很"; py "强"])
             [py "很"; py "强"]); reflexivity.
Defined.

(** C7: when the segmentation of [x] concatenates back to [x], substitution
    with an empty table returns [x]. *)
Theorem substitute_empty_table_identity :
  forall (T : Tokenizer) (x : str),
    join (lcut x) = x -> _replace_words [] x = Ok x.
Proof.
  intros T x Hjoin. unfold _replace_words, replaced_tokens.
  rewrite replace_loop_copies.
  - simpl. rewrite Hjoin. reflexivity.
  - apply Forall_forall. reflexivity.
Qed.

Lemma substitute_empty_table_identity_witness :
  join (@lcut whole_text (py "人工智能很强")) = py "人工智能很强"
  /\ @_replace_words whole_text [] (py "人工智能很强") = Ok (py "人工智能很强").
Proof.
  split; [reflexivity |].
  apply (@substitute_empty_table_identity whole_text (py "人工智能很强")).
  reflexivity.
Defined.

(** ** Loading the dictionary *)

Lemma append_synonym_has_replacements (orig replace : str)
  (t : SynonymTable) :
  has_replacements t -> has_replacements (append_synonym orig replace t).
Proof.
  unfold has_replacements.
  induction 1 as [|[k vs] t Hk Ht IH]; simpl.
  - repeat constructor. discriminate.
  - destruct (eqb orig k); constructor; auto.
    simpl. destruct vs; discriminate.
Qed.

Lemma load_line_has_replacements (t : SynonymTable) (line : str) :
  has_replacements t -> has_replacements (load_line t line).
Proof.
  intros Hwf. unfold load_line.
  destruct (nonempty (strip line)); [| exact Hwf].
  destruct (split_ws1 (strip line)) as [|orig [|replace [|]]]; auto.
  apply append_synonym_has_replacements, Hwf.
Qed.

(** Every table that the loader builds has a replacement for each term. *)
Lemma loaded_table_has_replacements (lines : list str) (t : SynonymTable) :
  has_replacements t -> has_replacements (fold_left load_line lines t).
Proof.
  revert t. induction lines as [|line lines IH]; intros t Hwf; simpl; auto.
  apply IH, load_line_has_replacements, Hwf.
Qed.

(** C2, as the code has it: when the source fails at the I/O level,
    [load_synonyms] catches the exception that the source raised and reports
    that very exception in one error dialog; the constructor returns a
    processor all the same, and its table holds the entries of the lines
    read before the failure (none when the file could not be opened), the
    same table as a source that ends after those lines. *)
Theorem constructor_reports_io_failure_and_keeps_table :
  forall (src : dict_source) (freq : N),
    io_failure src ->
    exists e,
      raised_by src = Some e
      /\ load_block src [] = (fold_left load_line (lines_read src) [], Raised e)
      /\ ArticleProcessor_init src freq
         = (Ok {| synonyms := fold_left load_line (lines_read src) [];
                  synonym_freq := freq |},
            [showerror e],
            map (fun word => (word, freq))
              (keys (fold_left load_line (lines_read src) [])))
      /\ fst (fst (ArticleProcessor_init src freq))
         = fst (fst (ArticleProcessor_init (Opened (lines_read src) None) freq)).
Proof.
  intros [e | lines [e|]] freq Hfail; simpl in Hfail; try contradiction;
    exists e; repeat split; reflexivity.
Qed.

Lemma constructor_reports_io_failure_and_keeps_table_witness :
  io_failure failing_source
  /\ raised_by failing_source = Some UnicodeDecodeError
  /\ snd (fst (ArticleProcessor_init failing_source 1000))
     = [showerror UnicodeDecodeError]
  /\ fst (fst (ArticleProcessor_init failing_source 1000))
     = Ok {| synonyms := [(py "人工智能", [py "AI"])]; synonym_freq := 1000 |}.
Proof.
  destruct (constructor_reports_io_failure_and_keeps_table failing_source
              1000 I) as (e & Hraised & _ & Hinit & _).
  injection Hraised as <-.
  split; [exact I | split; [reflexivity |]].
  rewrite Hinit. split; reflexivity.
Defined.

(** C2, the claim as stated fails: the source yields the line "人工智能 AI"
    and then raises; the constructor does not raise, the entry of that line
    is kept, and a later substitution uses it. *)
Lemma constructor_survives_io_failure_counterexample :
  io_failure failing_source
  /\ ~ construction_fails failing_source 1000
  /\ exists self,
      fst (fst (ArticleProcessor_init failing_source 1000)) = Ok self
      /\ synonyms self = [(py "人工智能", [py "AI"])]
      /\ @_replace_words whole_text (synonyms self) (py "人工智能")
         = Ok (py "AI").
Proof.
  split; [exact I | split].
  - intros [e He]. discriminate He.
  - eexists. split; [reflexivity | split; reflexivity].
Qed.

(** ** Whitespace, terminal marks and line breaks *)

Lemma is_terminal_iff (c : char) :
  is_terminal c = true <-> c = ch "。" \/ c = ch "！" \/ c = ch "？".
Proof.
  unfold is_terminal. rewrite mem_In. simpl. split.
  - intros [H | [H | [H | []]]]; injection H as <-; auto.
  - intros [-> | [-> | ->]]; auto.
Qed.

Lemma terminal_not_space (c : char) :
  is_terminal c = true -> isspace c = false.
Proof.
  rewrite is_terminal_iff. intros [-> | [-> | ->]]; reflexivity.
Qed.

Lemma terminal_not_newline (c : char) :
  is_terminal c = true -> c <> newline.
Proof.
  rewrite is_terminal_iff. intros [-> | [-> | ->]]; discriminate.
Qed.

(** A segment is one of the three mark strings iff it is a single terminal
    mark. *)
Lemma mem_terminal_marks (seg : str) :
  mem seg terminal_marks = true
  <-> exists c, seg = [c] /\ is_terminal c = true.
Proof.
  rewrite mem_In. split.
  - intros [<- | [<- | [<- | []]]]; eexists; split; reflexivity.
  - intros (c & -> & Hc). apply mem_In. exact Hc.
Qed.

Lemma text_piece_not_mark (seg : str) :
  Forall (fun c => is_terminal c = false) seg ->
  mem seg terminal_marks = false.
Proof.
  intros Hseg. destruct (mem seg terminal_marks) eqn:E; [| reflexivity].
  apply mem_terminal_marks in E. destruct E as (c & -> & Hc).
  inversion Hseg; congruence.
Qed.

Lemma lstrip_Forall (Q : char -> Prop) (s : str) :
  Forall Q s -> Forall Q (lstrip s).
Proof.
  induction 1 as [|c s Hc Hs IH]; simpl; [constructor |].
  destruct (isspace c); [exact IH | constructor; assumption].
Qed.

Lemma strip_Forall (Q : char -> Prop) (s : str) :
  Forall Q s -> Forall Q (strip s).
Proof.
  intros H. unfold strip, rstrip.
  apply Forall_rev, lstrip_Forall, Forall_rev, lstrip_Forall, H.
Qed.

Lemma nonempty_rev (s : str) : nonempty (rev s) = nonempty s.
Proof.
  destruct s as [|c s]; [reflexivity |].
  simpl. destruct (rev s); reflexivity.
Qed.

Lemma lstrip_nonempty (s : str) :
  nonempty (lstrip s) = true <-> Exists (fun c => isspace c = false) s.
Proof.
  induction s as [|c s IH]; simpl.
  - split; [discriminate | intros H; inversion H].
  - destruct (isspace c) eqn:E.
    + rewrite IH. split; [auto | intros H; inversion H; congruence].
    + split; [auto | reflexivity].
Qed.

Lemma lstrip_Exists (s : str) :
  Exists (fun c => isspace c = false) (lstrip s)
  <-> Exists (fun c => isspace c = false) s.
Proof.
  induction s as [|c s IH]; simpl; [tauto |].
  destruct (isspace c) eqn:E; [| tauto].
  rewrite IH. split; [auto | intros H; inversion H; congruence].
Qed.

(** A paragraph is blank for [process] iff all its characters are
    whitespace. *)
Lemma strip_nonempty (s : str) :
  nonempty (strip s) = true <-> Exists (fun c => isspace c = false) s.
Proof.
  unfold strip, rstrip.
  rewrite nonempty_rev, lstrip_nonempty, <- (lstrip_Exists s).
  rewrite Exists_exists. setoid_rewrite <- in_rev.
  rewrite <- Exists_exists. reflexivity.
Qed.

Lemma blank_no_terminal (s : str) :
  nonempty (strip s) = false -> Forall (fun c => is_terminal c = false) s.
Proof.
  intros Hblank. apply Forall_forall. intros c Hc.
  destruct (is_terminal c) eqn:E; [| reflexivity].
  assert (nonempty (strip s) = true); [| congruence].
  apply strip_nonempty, Exists_exists. exists c.
  split; [exact Hc | apply terminal_not_space, E].
Qed.

(** ** Paragraphs *)

Lemma split_nl_from_app (cur x rest : str) :
  Forall (fun c => c <> newline) x ->
  split_nl_from cur (x ++ rest) = split_nl_from (cur ++ x) rest.
Proof.
  intros Hx. revert cur. induction Hx as [|c x Hc _ IH]; intros cur; simpl.
  - rewrite app_nil_r. reflexivity.
  - unfold eqb_char. destruct (N.eqb_spec c newline) as [|_]; [contradiction |].
    rewrite IH, <- app_assoc. reflexivity.
Qed.

Lemma split_join_nl (p : str) (ps : list str) :
  Forall (Forall (fun c => c <> newline)) (p :: ps) ->
  forall cur, split_nl_from cur (join_nl (p :: ps)) = (cur ++ p) :: ps.
Proof.
  revert p. induction ps as [|q ps IH]; intros p Hall cur.
  - inversion Hall as [|? ? Hp _]; subst. simpl.
    rewrite <- (app_nil_r p) at 1.
    rewrite split_nl_from_app by exact Hp. reflexivity.
  - inversion Hall as [|? ? Hp Hrest]; subst.
    change (join_nl (p :: q :: ps)) with (p ++ newline :: join_nl (q :: ps)).
    rewrite split_nl_from_app by exact Hp.
    change (split_nl_from (cur ++ p) (newline :: join_nl (q :: ps)))
      with ((cur ++ p) :: split_nl_from [] (join_nl (q :: ps))).
    rewrite (IH q Hrest []). reflexivity.
Qed.

(** Splitting at line breaks undoes joining with them. *)
Lemma split_nl_join_nl (ps : list str) :
  ps <> [] -> Forall (Forall (fun c => c <> newline)) ps ->
  split_nl (join_nl ps) = ps.
Proof.
  destruct ps as [|p ps]; [congruence |]. intros _ Hall.
  unfold split_nl. rewrite split_join_nl by exact Hall. reflexivity.
Qed.

Lemma split_nl_from_pieces (s cur : str) :
  Forall (fun c => c <> newline) cur ->
  Forall (Forall (fun c => c <> newline)) (split_nl_from cur s).
Proof.
  revert cur. induction s as [|c s IH]; intros cur Hcur; simpl.
  - repeat constructor. exact Hcur.
  - unfold eqb_char. destruct (N.eqb_spec c newline) as [|Hc].
    + constructor; [exact Hcur | apply IH; constructor].
    + apply IH, Forall_app. split; [exact Hcur | repeat constructor; exact Hc].
Qed.

Lemma split_nl_pieces (s : str) :
  Forall (Forall (fun c => c <> newline)) (split_nl s).
Proof. apply split_nl_from_pieces. constructor. Qed.

Lemma split_nl_from_not_nil (s cur : str) : split_nl_from cur s <> [].
Proof.
  revert cur. induction s as [|c s IH]; intros cur; simpl; [discriminate |].
  destruct (eqb_char c newline); [discriminate | apply IH].
Qed.

(** ** Sentences *)

Lemma sentences_from_app (s tail cur : str) :
  Forall (fun c => is_terminal c = false) tail ->
  sentences_from cur (s ++ tail) = sentences_from cur s.
Proof.
  intros Htail. revert cur. induction s as [|c s IH]; intros cur; simpl.
  - revert cur. induction Htail as [|c tail Hc _ IH]; intros cur; simpl;
      [reflexivity |].
    rewrite Hc. apply IH.
  - destruct (is_terminal c); [f_equal |]; apply IH.
Qed.

Lemma sentences_from_none (s cur : str) :
  Forall (fun c => is_terminal c = false) s -> sentences_from cur s = [].
Proof.
  intros Hs. rewrite <- (app_nil_l s), sentences_from_app by exact Hs.
  reflexivity.
Qed.

(** The runs of the sentences hold no terminal mark, and no line break when
    the paragraph holds none; the marks are terminal marks. *)
Lemma sentences_from_plain (s cur : str) :
  Forall (fun c => c <> newline) s -> Forall plain cur ->
  Forall (fun rm => Forall plain (fst rm) /\ is_terminal (snd rm) = true)
    (sentences_from cur s).
Proof.
  intros Hs. revert cur. induction Hs as [|c s Hc _ IH]; intros cur Hcur;
    simpl; [constructor |].
  destruct (is_terminal c) eqn:E.
  - constructor; [auto | apply IH; constructor].
  - apply IH, Forall_app. split; [exact Hcur |].
    repeat constructor; assumption.
Qed.

(** A paragraph is its sentences, each with its mark, and then the text
    behind the last mark, which holds no terminal mark. *)
Lemma sentences_from_decompose (s cur : str) :
  cur ++ s
  = concat (map (fun rm => fst rm ++ [snd rm]) (sentences_from cur s))
    ++ remainder_from cur s.
Proof.
  revert cur. induction s as [|c s IH]; intros cur; simpl.
  - apply app_nil_r.
  - destruct (is_terminal c); simpl.
    + rewrite <- !app_assoc, <- (IH []). reflexivity.
    + rewrite <- IH, <- app_assoc. reflexivity.
Qed.

Lemma remainder_from_no_terminal (s cur : str) :
  Forall (fun c => is_terminal c = false) cur ->
  Forall (fun c => is_terminal c = false) (remainder_from cur s).
Proof.
  revert cur. induction s as [|c s IH]; intros cur Hcur; simpl; [exact Hcur |].
  destruct (is_terminal c) eqn:E; apply IH; [constructor |].
  apply Forall_app. split; [exact Hcur | repeat constructor; exact E].
Qed.

Lemma sentences_from_no_terminal (s cur : str) :
  Forall (fun c => is_terminal c = false) cur ->
  Forall (fun rm => Forall (fun c => is_terminal c = false) (fst rm)
                    /\ is_terminal (snd rm) = true)
    (sentences_from cur s).
Proof.
  revert cur. induction s as [|c s IH]; intros cur Hcur; simpl;
    [constructor |].
  destruct (is_terminal c) eqn:E.
  - constructor; [auto | apply IH; constructor].
  - apply IH, Forall_app. split; [exact Hcur | repeat constructor; exact E].
Qed.

Lemma sentences_from_count (s cur : str) :
  length (sentences_from cur s) = count_marks s.
Proof.
  unfold count_marks. revert cur.
  induction s as [|c s IH]; intros cur; simpl; [reflexivity |].
  destruct (is_terminal c); simpl; rewrite IH; reflexivity.
Qed.

(** ** The loops of [process] *)

Lemma for_each_app {S A : Type} (body : S -> A -> result S)
  (xs ys : list A) (st : S) :
  for_each body (xs ++ ys) st
  = (st' <- for_each body xs st ;; for_each body ys st').
Proof.
  revert st. induction xs as [|x xs IH]; intros st; simpl; [reflexivity |].
  destruct (body st x); simpl; [apply IH | reflexivity].
Qed.

Section Processing.

Context {T : Tokenizer}.

Lemma seg_step_text (t : SynonymTable) (st : seg_state) (seg : str) :
  Forall (fun c => is_terminal c = false) seg ->
  seg_step t st seg
  = Ok {| new_sentences := new_sentences st;
          buffer := buffer st ++ [seg];
          contrast_pairs := contrast_pairs st |}.
Proof.
  intros Hseg. unfold seg_step.
  rewrite (text_piece_not_mark Hseg). reflexivity.
Qed.

Lemma seg_step_mark (t : SynonymTable) (st : seg_state) (cur : str)
  (c : char) :
  is_terminal c = true -> buffer st = [cur] ->
  seg_step t st [c] = sentence_step t st (cur, c).
Proof.
  intros Hc Hbuf. unfold seg_step, sentence_step, transform.
  assert (mem [c] terminal_marks = true) as -> by exact Hc.
  rewrite Hbuf. unfold join. simpl concat. rewrite app_nil_r. simpl fst.
  destruct (_condense_sentence (strip cur)) as [condensed|e];
    [| reflexivity].
  simpl. destruct (_replace_words t condensed); reflexivity.
Qed.

Lemma sentence_step_buffer (t : SynonymTable) (st st' : seg_state)
  (s : str * char) :
  sentence_step t st s = Ok st' -> buffer st' = [].
Proof.
  unfold sentence_step.
  destruct (transform t (strip (fst s))); simpl; [| discriminate].
  intros [= <-]. reflexivity.
Qed.

Lemma sentence_step_ignores_buffer (t : SynonymTable) (st : seg_state)
  (b : list str) (s : str * char) :
  sentence_step t
    {| new_sentences := new_sentences st; buffer := b;
       contrast_pairs := contrast_pairs st |} s
  = sentence_step t st s.
Proof. reflexivity. Qed.

(** The loop over the segments of [re.split] handles the sentences one by
    one and ends with the text behind the last mark in the buffer. *)
Lemma seg_loop_sentences (t : SynonymTable) (s : str) :
  forall (cur : str) (st : seg_state),
    Forall (fun c => is_terminal c = false) cur ->
    buffer st = [] ->
    for_each (seg_step t) (re_split_from cur s) st
    = (st' <- for_each (sentence_step t) (sentences_from cur s) st ;;
       Ok {| new_sentences := new_sentences st';
             buffer := [remainder_from cur s];
             contrast_pairs := contrast_pairs st' |}).
Proof.
  induction s as [|c s IH]; intros cur st Hcur Hbuf.
  - simpl. rewrite (seg_step_text t st Hcur), Hbuf. reflexivity.
  - simpl re_split_from. simpl sentences_from. simpl remainder_from.
    destruct (is_terminal c) eqn:Ec.
    + cbn [for_each]. rewrite (seg_step_text t st Hcur), Hbuf.
      cbn [bind app].
      rewrite seg_step_mark with (cur := cur) by (exact Ec || reflexivity).
      rewrite sentence_step_ignores_buffer.
      destruct (sentence_step t st (cur, c)) as [st1|e] eqn:E1;
        [| reflexivity].
      cbn [bind]. apply IH; [constructor |].
      apply (sentence_step_buffer _ _ _ E1).
    + apply IH; [| exact Hbuf].
      apply Forall_app. split; [exact Hcur | repeat constructor; exact Ec].
Qed.

(** One round of the paragraph loop, blank paragraph or not: the sentences
    of the paragraph are handled and their outputs joined. *)
Lemma para_step_sentences (t : SynonymTable) (pp : list str)
  (prs : list (str * str)) (para : str) :
  para_step t (pp, prs) para
  = (st' <- for_each (sentence_step t) (sentences para)
              {| new_sentences := []; buffer := []; contrast_pairs := prs |} ;;
     Ok (pp ++ [join (new_sentences st')], contrast_pairs st')).
Proof.
  unfold para_step. destruct (nonempty (strip para)) eqn:E.
  - unfold re_split, sentences.
    rewrite seg_loop_sentences by (constructor || reflexivity).
    destruct (for_each (sentence_step t) (sentences_from [] para) _);
      reflexivity.
  - unfold sentences.
    rewrite sentences_from_none by (apply blank_no_terminal, E).
    reflexivity.
Qed.

Lemma sentence_loop_spec (t : SynonymTable) (sents : list (str * char)) :
  forall st st',
    for_each (sentence_step t) sents st = Ok st' ->
    exists outs per,
      Forall2 (sentence_output t) sents outs
      /\ Forall2 (sentence_pairs t) sents per
      /\ new_sentences st' = new_sentences st ++ outs
      /\ contrast_pairs st' = contrast_pairs st ++ concat per.
Proof.
  induction sents as [|s sents IH]; intros st st' Hrun; simpl in Hrun.
  - injection Hrun as <-. exists [], []. simpl. rewrite !app_nil_r.
    repeat split; constructor.
  - destruct (sentence_step t st s) as [st1|e] eqn:E1; [| discriminate].
    simpl in Hrun. apply IH in Hrun.
    destruct Hrun as (outs & per & Houts & Hper & Hnew & Hpairs).
    unfold sentence_step in E1.
    destruct (transform t (strip (fst s))) as [replaced|e] eqn:Etr;
      [| discriminate].
    simpl in E1. injection E1 as <-. simpl in Hnew, Hpairs.
    exists ((replaced ++ [snd s]) :: outs).
    exists ((if nonempty (strip (fst s)) && nonempty replaced
             then [(strip (fst s) ++ [snd s], replaced ++ [snd s])]
             else []) :: per).
    split; [constructor; [exists replaced; auto | exact Houts] |].
    split; [constructor; [exists replaced; auto | exact Hper] |].
    rewrite Hnew, Hpairs, <- app_assoc. split; [reflexivity |].
    simpl concat.
    destruct (nonempty (strip (fst s)) && nonempty replaced);
      rewrite <- ?app_assoc; reflexivity.
Qed.

Lemma para_step_spec (t : SynonymTable) (pp pp' : list str)
  (prs prs' : list (str * str)) (para : str) :
  para_step t (pp, prs) para = Ok (pp', prs') ->
  exists out per,
    paragraph_output t para out
    /\ Forall2 (sentence_pairs t) (sentences para) per
    /\ pp' = pp ++ [out] /\ prs' = prs ++ concat per.
Proof.
  rewrite para_step_sentences.
  destruct (for_each (sentence_step t) (sentences para) _) as [st'|e] eqn:E;
    [| discriminate].
  simpl. intros [= <- <-]. apply sentence_loop_spec in E.
  destruct E as (outs & per & Houts & Hper & Hnew & Hpairs).
  simpl in Hnew, Hpairs. exists (join outs), per.
  split; [exists outs; auto |]. rewrite Hnew. auto.
Qed.

Lemma para_loop_spec (t : SynonymTable) (paras : list str) :
  forall pp prs pp' prs',
    for_each (para_step t) paras (pp, prs) = Ok (pp', prs') ->
    exists outs per,
      Forall2 (paragraph_output t) paras outs
      /\ Forall2 (sentence_pairs t) (flat_map sentences paras) per
      /\ pp' = pp ++ outs /\ prs' = prs ++ concat per.
Proof.
  induction paras as [|para paras IH]; intros pp prs pp' prs' Hrun;
    cbn [for_each] in Hrun.
  - injection Hrun as <- <-. exists [], []. simpl. rewrite !app_nil_r.
    repeat split; constructor.
  - destruct (para_step t (pp, prs) para) as [[pp1 prs1]|e] eqn:E1;
      [| discriminate].
    simpl in Hrun. apply IH in Hrun.
    destruct Hrun as (outs & per & Houts & Hper & -> & ->).
    apply para_step_spec in E1.
    destruct E1 as (out & per1 & Hout & Hper1 & -> & ->).
    exists (out :: outs), (per1 ++ per).
    split; [constructor; assumption |].
    split; [simpl; apply Forall2_app; assumption |].
    rewrite concat_app, <- !app_assoc. auto.
Qed.

Lemma sentence_loop_total (t : SynonymTable) (sents : list (str * char)) :
  (forall orig, exists r, transform t orig = Ok r) ->
  forall st, exists st', for_each (sentence_step t) sents st = Ok st'.
Proof.
  intros Htotal. induction sents as [|s sents IH]; intros st; simpl;
    [eauto |].
  unfold sentence_step at 1.
  destruct (Htotal (strip (fst s))) as [r ->]. simpl. apply IH.
Qed.

Lemma para_loop_total (t : SynonymTable) (paras : list str) :
  (forall orig, exists r, transform t orig = Ok r) ->
  forall st, exists st', for_each (para_step t) paras st = Ok st'.
Proof.
  intros Htotal. induction paras as [|para paras IH]; intros [pp prs];
    cbn [for_each]; [eauto |].
  rewrite para_step_sentences.
  destruct (sentence_loop_total t (sentences para) Htotal
              {| new_sentences := []; buffer := []; contrast_pairs := prs |})
    as [st' ->].
  simpl. apply IH.
Qed.

Lemma process_loop (t : SynonymTable) (text : str) (contrast : bool)
  (pp : list str) (prs : list (str * str)) :
  for_each (para_step t) (split_nl text) ([], []) = Ok (pp, prs) ->
  process t text contrast
  = Ok (if contrast then TextAndPairs (join_nl pp) prs
        else Text (join_nl pp)).
Proof.
  intros Hrun. unfold process. rewrite Hrun. simpl.
  destruct contrast; reflexivity.
Qed.

Lemma transform_total (t : SynonymTable) :
  (forall s, Forall (fun wp => snd wp <> []) (cut s)) ->
  has_replacements t ->
  forall orig, exists r, transform t orig = Ok r.
Proof.
  intros Htags Hwf orig. unfold transform, _condense_sentence.
  destruct (select_kept_by_rule (Htags (strip_clauses orig)) [])
    as (kept & -> & _).
  simpl. apply replace_words_total, Hwf.
Qed.

(** What follows the last terminal mark of a paragraph does not reach the
    paragraph loop. *)
Lemma para_step_drops_tail (t : SynonymTable)
  (st : list str * list (str * str)) (para tail : str) :
  Forall (fun c => is_terminal c = false) tail ->
  para_step t st (para ++ tail) = para_step t st para.
Proof.
  intros Htail. destruct st as [pp prs].
  rewrite !para_step_sentences. unfold sentences.
  rewrite sentences_from_app by exact Htail. reflexivity.
Qed.

End Processing.

(** ** The stub tokenizers *)

Lemma whole_text_tagged (s : str) :
  Forall (fun wp => snd wp <> []) (@cut whole_text s).
Proof.
  simpl. destruct (nonempty s); repeat constructor. discriminate.
Qed.

Lemma whole_text_lossless : Lossless whole_text.
Proof.
  split.
  - intros [|c s]; [reflexivity |]. simpl. rewrite app_nil_r. reflexivity.
  - intros [|c s]; [reflexivity |]. simpl. rewrite app_nil_r. reflexivity.
  - apply whole_text_tagged.
Qed.

(** ** Contrast pairs *)

(** C8: with contrast output requested, [process] returns the text and the
    list of pairs; the list holds, in document order, for each sentence of
    each paragraph one pair (trimmed text and mark, substituted text and the
    same mark) when the trimmed text and the substituted text are both
    non-empty, and nothing for the sentence otherwise.  Without the request
    it returns the same text alone.  The tokenizer tags every token and the
    table has a replacement for every term, so that no step raises. *)
Theorem process_contrast_pairs_per_sentence :
  forall (T : Tokenizer) (t : SynonymTable) (text : str),
    (forall s, Forall (fun wp => snd wp <> []) (cut s)) ->
    has_replacements t ->
    exists out pairs per,
      process t text true = Ok (TextAndPairs out pairs)
      /\ process t text false = Ok (Text out)
      /\ Forall2 (sentence_pairs t) (flat_map sentences (split_nl text)) per
      /\ pairs = concat per.
Proof.
  intros T t text Htags Hwf.
  pose proof (transform_total Htags Hwf) as Htotal.
  destruct (para_loop_total t (split_nl text) Htotal ([], []))
    as [[pp prs] Hrun].
  destruct (para_loop_spec t _ _ _ Hrun)
    as (outs & per & _ & Hper & _ & Hprs).
  exists (join_nl pp), prs, per.
  rewrite (process_loop t text true Hrun), (process_loop t text false Hrun).
  auto.
Qed.

Lemma process_contrast_pairs_per_sentence_witness :
  exists out pairs per,
    @process whole_text ai_table (py "人工智能。很！") true
    = Ok (TextAndPairs out pairs)
    /\ @process whole_text ai_table (py "人工智能。很！") false = Ok (Text out)
    /\ Forall2 (@sentence_pairs whole_text ai_table)
         (flat_map sentences (split_nl (py "人工智能。很！"))) per
    /\ pairs = concat per.
Proof.
  apply (@process_contrast_pairs_per_sentence whole_text ai_table
           (py "人工智能。很！") whole_text_tagged).
  repeat constructor; discriminate.
Defined.

Example process_contrast_example :
  @process whole_text ai_table (py "人工智能。很！") true
  = Ok (TextAndPairs (py "AI。！") [(py "人工智能。", py "AI。")]).
Proof. reflexivity. Qed.

(** ** Text behind the last terminal mark *)

(** C9: in every paragraph the text behind the last terminal mark is
    dropped.  A round of the paragraph loop gives the same output and the
    same pairs with and without that text; a paragraph with no terminal mark
    becomes the empty string and adds no pair; and [process] returns for a
    text the same result as for the text with such a tail removed from one
    of its paragraphs. *)
Theorem process_drops_text_after_last_mark :
  forall (T : Tokenizer) (t : SynonymTable) (tail : str),
    Forall (fun c => is_terminal c = false) tail ->
    (forall para st, para_step t st (para ++ tail) = para_step t st para)
    /\ (forall pp prs, para_step t (pp, prs) tail = Ok (pp ++ [[]], prs))
    /\ (forall before para after contrast,
           Forall (Forall (fun c => c <> newline))
             (before ++ (para ++ tail) :: after) ->
           process t (join_nl (before ++ (para ++ tail) :: after)) contrast
           = process t (join_nl (before ++ para :: after)) contrast).
Proof.
  intros T t tail Htail. split; [| split].
  - intros para st. apply para_step_drops_tail, Htail.
  - intros pp prs. rewrite para_step_sentences. unfold sentences.
    rewrite sentences_from_none by exact Htail. reflexivity.
  - intros before para after contrast Hnl.
    assert (Hnl' : Forall (Forall (fun c => c <> newline))
                     (before ++ para :: after)).
    { apply Forall_app in Hnl. destruct Hnl as [Hb Hrest].
      inversion Hrest as [|? ? Hp Ha]; subst.
      apply Forall_app in Hp. destruct Hp as [Hp _].
      apply Forall_app. split; [exact Hb | constructor; assumption]. }
    unfold process.
    rewrite !split_nl_join_nl by (assumption || (destruct before; discriminate)).
    rewrite !for_each_app. cbn [for_each].
    destruct (for_each (para_step t) before ([], [])) as [st|e];
      [| reflexivity].
    cbn [bind]. rewrite para_step_drops_tail by exact Htail. reflexivity.
Qed.

Lemma process_drops_text_after_last_mark_witness :
  Forall (fun c => is_terminal c = false) (py "很强")
  /\ @process whole_text ai_table
       (join_nl ([py "智能！"] ++ (py "人工智能。" ++ py "很强") :: [])) true
     = @process whole_text ai_table
         (join_nl ([py "智能！"] ++ py "人工智能。" :: [])) true.
Proof.
  assert (Htail : Forall (fun c => is_terminal c = false) (py "很强"))
    by (repeat constructor).
  split; [exact Htail |].
  apply (proj2 (proj2 (@process_drops_text_after_last_mark whole_text
                         ai_table (py "很强") Htail))).
  repeat constructor; discriminate.
Defined.

(** ** Characters that reach the output *)

Lemma sub_delete_Forall (Q : char -> Prop) (alts : list (list atom))
  (s : str) :
  Forall Q s -> forall skip, Forall Q (sub_delete alts skip s).
Proof.
  induction 1 as [|c s Hc _ IH]; intros skip; [constructor |].
  cbn [sub_delete]. destruct skip as [|k]; [| apply IH].
  destruct (match_alts alts (c :: s)) as [[|n]|];
    try (constructor; [exact Hc | apply IH]).
  apply IH.
Qed.

Lemma kept_by_rule_incl (words : list (str * str)) (kept : list str) :
  kept_by_rule words kept -> incl kept (map fst words).
Proof.
  induction 1 as [|wp rest kept _ _ IH|wp rest kept _ _ IH]; simpl.
  - apply incl_nil_l.
  - apply incl_cons; [left; reflexivity | apply incl_tl, IH].
  - apply incl_tl, IH.
Qed.

Lemma dedup_upto_Forall (Q : char -> Prop) (kept : list str) (n : nat) :
  Forall (Forall Q) kept -> Forall (Forall Q) (dedup_upto kept n).
Proof.
  intros Hkept.
  assert (Hnth : forall i, Forall Q (nth i kept [])).
  { intros i. destruct (nth_in_or_default i kept []) as [Hin | ->];
      [| constructor].
    rewrite Forall_forall in Hkept. auto. }
  induction n as [|n IH]; [constructor |].
  rewrite dedup_upto_S. unfold dedup_step.
  destruct ((0 <? n) && mem (nth (n - 1) kept []) connectors);
    [| destruct (negb (mem (nth n kept []) (dedup_upto kept n)))];
    try exact IH;
    apply Forall_app; split; auto.
Qed.

Lemma build_output_Forall (Q : char -> Prop) (kept : list str) :
  Forall (Forall Q) kept -> Forall Q (build_output kept).
Proof.
  intros Hkept. destruct kept as [|w kept]; [constructor |].
  unfold build_output. apply Forall_join, dedup_upto_Forall, Hkept.
Qed.

Lemma first_replacement_plain (t : SynonymTable) (k r : str) :
  plain_replacements t -> first_replacement k t = Ok r -> Forall plain r.
Proof.
  intros Hplain. unfold first_replacement.
  destruct (lookup k t) as [[|r' vs]|] eqn:E; try discriminate.
  intros [= <-]. apply lookup_Some_In in E.
  unfold plain_replacements in Hplain. rewrite Forall_forall in Hplain.
  destruct (Hplain _ E) as (r0 & rest & [= <- <-] & Hr). exact Hr.
Qed.

Lemma plain_has_replacements (t : SynonymTable) :
  plain_replacements t -> has_replacements t.
Proof.
  apply Forall_impl. intros [k vs] (r & rest & Hkv & _) Hnil.
  simpl in Hkv, Hnil. subst vs. discriminate.
Qed.

Lemma count_marks_app (a b : str) :
  count_marks (a ++ b) = count_marks a + count_marks b.
Proof. unfold count_marks. rewrite filter_app, length_app. reflexivity. Qed.

Lemma count_marks_plain (s : str) : Forall plain s -> count_marks s = 0.
Proof.
  unfold count_marks. induction 1 as [|c s [Hc _] _ IH]; simpl;
    [reflexivity |].
  rewrite Hc. exact IH.
Qed.

Section Counting.

Context {T : Tokenizer} {L : Lossless T}.

Lemma condense_Forall (Q : char -> Prop) (sentence : str) :
  Forall Q sentence ->
  exists condensed,
    _condense_sentence sentence = Ok condensed /\ Forall Q condensed.
Proof.
  intros Hs. unfold _condense_sentence.
  destruct (select_kept_by_rule (cut_tagged (strip_clauses sentence)) [])
    as (kept & -> & Hrule).
  simpl. eexists. split; [reflexivity |].
  apply build_output_Forall.
  assert (Hwords : Forall (Forall Q) (map fst (cut (strip_clauses sentence)))).
  { apply Forall_join. rewrite cut_join. apply sub_delete_Forall, Hs. }
  rewrite Forall_forall in *. intros w Hw.
  apply Hwords, (kept_by_rule_incl Hrule), Hw.
Qed.

Lemma replace_loop_plain (t : SynonymTable) (text : str) (words : list str) :
  plain_replacements t -> Forall (Forall plain) words ->
  forall acc i acc' i',
    Forall (Forall plain) acc ->
    for_each (replace_step t text) words (acc, i) = Ok (acc', i') ->
    Forall (Forall plain) acc'.
Proof.
  intros Hplain. induction 1 as [|w ws Hw _ IH]; intros acc i acc' i' Hacc;
    cbn [for_each].
  - intros [= <- <-]. exact Hacc.
  - unfold replace_step at 1.
    destruct (contains w t).
    + destruct (scan text i (sorted_by_len_desc (keys t))) as [o|].
      * destruct (first_replacement o t) as [r|e] eqn:Er; [| discriminate].
        cbn [bind]. apply IH, Forall_app. split; [exact Hacc |].
        repeat constructor. apply (first_replacement_plain _ Hplain Er).
      * destruct (first_replacement w t) as [r|e] eqn:Er; [| discriminate].
        cbn [bind]. apply IH, Forall_app. split; [exact Hacc |].
        repeat constructor. apply (first_replacement_plain _ Hplain Er).
    + cbn [bind]. apply IH, Forall_app. split; [exact Hacc |].
      repeat constructor. exact Hw.
Qed.

Lemma replace_words_plain (t : SynonymTable) (text : str) :
  plain_replacements t -> Forall plain text ->
  exists r, _replace_words t text = Ok r /\ Forall plain r.
Proof.
  intros Hplain Htext. unfold _replace_words, replaced_tokens.
  destruct (replace_loop_total text (lcut text)
              (plain_has_replacements Hplain) ([], 0)) as [[acc i] Hrun].
  rewrite Hrun. simpl. eexists. split; [reflexivity |].
  apply Forall_join.
  eapply replace_loop_plain; [exact Hplain | | | exact Hrun]; [| constructor].
  apply Forall_join. rewrite lcut_join. exact Htext.
Qed.

Lemma transform_plain (t : SynonymTable) (orig : str) :
  plain_replacements t -> Forall plain orig ->
  exists r, transform t orig = Ok r /\ Forall plain r.
Proof.
  intros Hplain Horig. unfold transform.
  destruct (condense_Forall Horig) as (condensed & -> & Hc). simpl.
  apply replace_words_plain; assumption.
Qed.

(** The outputs of the sentences of a paragraph hold one terminal mark each
    and no line break. *)
Lemma sentence_outputs_count (t : SynonymTable) (sents : list (str * char))
  (outs : list str) :
  plain_replacements t ->
  Forall (fun rm => Forall plain (fst rm) /\ is_terminal (snd rm) = true)
    sents ->
  Forall2 (sentence_output t) sents outs ->
  count_marks (join outs) = length sents
  /\ Forall (fun c => c <> newline) (join outs).
Proof.
  intros Hplain Hsents Houts.
  induction Houts as [|s out sents outs (replaced & Htr & ->) _ IH].
  - split; [reflexivity | constructor].
  - inversion Hsents as [|? ? [Hraw Hm] Hrest]; subst.
    destruct (IH Hrest) as [IHc IHn].
    destruct s as [raw m]. cbn [fst snd] in *.
    destruct (transform_plain Hplain (strip_Forall Hraw)) as (r & Hr & Hrp).
    assert (Heq : Ok r = Ok replaced) by (rewrite <- Htr; symmetry; exact Hr).
    injection Heq as <-.
    unfold join. cbn [concat]. fold (join outs). split.
    + rewrite !count_marks_app, (count_marks_plain Hrp), IHc.
      unfold count_marks. cbn [filter]. rewrite Hm. reflexivity.
    + rewrite !Forall_app. split; [split |]; [| | exact IHn].
      * apply Forall_impl with (2 := Hrp). intros c [_ Hc]. exact Hc.
      * repeat constructor. apply terminal_not_newline, Hm.
Qed.

Lemma paragraph_output_count (t : SynonymTable) (para out : str) :
  plain_replacements t ->
  Forall (fun c => c <> newline) para ->
  paragraph_output t para out ->
  count_marks out = count_marks para /\ Forall (fun c => c <> newline) out.
Proof.
  intros Hplain Hpara (outs & Houts & ->).
  rewrite <- (sentences_from_count para []).
  apply sentence_outputs_count with (t := t); [exact Hplain | | exact Houts].
  apply sentences_from_plain; [exact Hpara | constructor].
Qed.

End Counting.

(** ** Paragraphs and terminal marks of the output *)

Lemma paragraph_outputs_count {T : Tokenizer} {L : Lossless T}
  (t : SynonymTable) (paras outs : list str) :
  plain_replacements t ->
  Forall (Forall (fun c => c <> newline)) paras ->
  Forall2 (paragraph_output t) paras outs ->
  Forall2 (fun pin pout =>
             count_marks pout = count_marks pin /\ paragraph_output t pin pout)
    paras outs
  /\ Forall (Forall (fun c => c <> newline)) outs.
Proof.
  intros Hplain Hparas Houts.
  induction Houts as [|para out paras outs Hout _ IH].
  - split; constructor.
  - inversion Hparas as [|? ? Hpara Hrest]; subst.
    destruct (IH Hrest) as [IH2 IHn].
    destruct (paragraph_output_count Hplain Hpara Hout) as [Hc Hn].
    split; constructor; auto.
Qed.




(* ------------------------------------------------------------------ *)
(** * Further properties *)

(** ** Clause stripping *)

Lemma sub_delete_subsequence (alts : list (list atom)) (s : str) :
  forall skip, subsequence (sub_delete alts skip s) s.
Proof.
  induction s as [|c s IH]; intros skip; [constructor |].
  cbn [sub_delete]. destruct skip as [|k]; [| constructor; apply IH].
  destruct (match_alts alts (c :: s)) as [[|n]|];
    constructor; apply IH.
Qed.

Lemma subsequence_length {A : Type} (s l : list A) :
  subsequence s l -> length s <= length l.
Proof. induction 1; simpl; lia. Qed.

Lemma subsequence_In {A : Type} (s l : list A) (x : A) :
  subsequence s l -> In x s -> In x l.
Proof.
  induction 1 as [|y s l _ IH|y s l _ IH]; simpl; [tauto | | auto].
  intros [-> | Hin]; auto.
Qed.

(** X1: clause stripping only deletes.  The stripped sentence is the
    sentence with some characters left out, in the same order; it is never
    longer and holds no character that the sentence does not hold. *)
Theorem strip_clauses_only_deletes :
  forall sentence : str,
    subsequence (strip_clauses sentence) sentence
    /\ length (strip_clauses sentence) <= length sentence
    /\ (forall c, In c (strip_clauses sentence) -> In c sentence).
Proof.
  intros sentence.
  pose proof (sub_delete_subsequence filler_pattern sentence 0) as Hsub.
  split; [exact Hsub | split].
  - apply (subsequence_length Hsub).
  - intros c Hc. eapply subsequence_In; eassumption.
Qed.

Lemma filler_pattern_needs_lead (c : char) (s : str) :
  ~ clause_lead c -> match_alts filler_pattern (c :: s) = None.
Proof.
  intros Hlead. unfold filler_pattern.
  change (lits (py "当") ++ [DotStarLazy] ++ lits (py "时") ++ [OptLit (ch "，")])
    with (Lit (ch "当") :: DotStarLazy :: Lit (ch "时") :: [OptLit (ch "，")]).
  change (lits (py "尽管") ++ [DotStarLazy; OptLit (ch "，")])
    with (Lit (ch "尽") :: Lit (ch "管") :: DotStarLazy :: [OptLit (ch "，")]).
  change (lits (py "虽然") ++ [DotStarLazy] ++ lits (py "但是"))
    with (Lit (ch "虽") :: Lit (ch "然") :: DotStarLazy
            :: Lit (ch "但") :: [Lit (ch "是")]).
  rewrite !match_alts_cons, !match_here_lit. unfold eqb_char.
  destruct (N.eqb_spec c (ch "当")) as [E|_];
    [exfalso; apply Hlead; left; exact E |].
  destruct (N.eqb_spec c (ch "尽")) as [E|_];
    [exfalso; apply Hlead; right; left; exact E |].
  destruct (N.eqb_spec c (ch "虽")) as [E|_];
    [exfalso; apply Hlead; right; right; exact E |].
  reflexivity.
Qed.

(** Text without a lead character is copied, and stripping goes on behind
    it. *)
Lemma strip_clauses_copies_prefix (pre s : str) :
  Forall (fun c => ~ clause_lead c) pre ->
  strip_clauses (pre ++ s) = pre ++ strip_clauses s.
Proof.
  unfold strip_clauses. induction 1 as [|c pre Hc _ IH]; [reflexivity |].
  cbn [app]. rewrite sub_delete_copy by (apply filler_pattern_needs_lead, Hc).
  rewrite IH. reflexivity.
Qed.

(** X2: a sentence with none of the characters 当, 尽, 虽 comes out of
    clause stripping unchanged. *)
Theorem strip_clauses_without_lead_is_identity :
  forall sentence : str,
    Forall (fun c => ~ clause_lead c) sentence ->
    strip_clauses sentence = sentence.
Proof.
  intros sentence Hs.
  rewrite <- (app_nil_r sentence) at 1.
  rewrite (strip_clauses_copies_prefix [] Hs). apply app_nil_r.
Qed.

Lemma not_lead_by_value (c : char) :
  (c =? ch "当")%N || (c =? ch "尽")%N || (c =? ch "虽")%N = false ->
  ~ clause_lead c.
Proof.
  rewrite !orb_false_iff, !N.eqb_neq. unfold clause_lead. tauto.
Qed.

Lemma strip_clauses_without_lead_is_identity_witness :
  Forall (fun c => ~ clause_lead c) (py "他出门了。")
  /\ strip_clauses (py "他出门了。") = py "他出门了。".
Proof.
  assert (H : Forall (fun c => ~ clause_lead c) (py "他出门了。"))
    by (repeat constructor; apply not_lead_by_value; reflexivity).
  split; [exact H |].
  apply (strip_clauses_without_lead_is_identity H).
Defined.

(** X3: a time clause is deleted wherever it stands.  Behind text without a
    lead character, "当", a span with no "时" and no line break, "时" and
    the comma that follows it are deleted; the text before them is copied
    and stripping goes on behind them. *)
Theorem strip_clauses_deletes_time_clause :
  forall pre mid rest : str,
    Forall (fun c => ~ clause_lead c) pre ->
    Forall (fun c => c <> ch "时" /\ c <> newline) mid ->
    strip_clauses (pre ++ py "当" ++ mid ++ py "时" ++ rest)
    = pre ++ strip_clauses (drop_comma rest).
Proof.
  intros pre mid rest Hpre Hmid.
  rewrite (strip_clauses_copies_prefix _ Hpre).
  rewrite (strip_time_clause_span rest Hmid). reflexivity.
Qed.

Lemma strip_clauses_deletes_time_clause_witness :
  Forall (fun c => ~ clause_lead c) (py "昨天")
  /\ Forall (fun c => c <> ch "时" /\ c <> newline) (py "天气晴朗")
  /\ strip_clauses (py "昨天" ++ py "当" ++ py "天气晴朗" ++ py "时"
                      ++ py "，他出门了")
     = py "昨天" ++ strip_clauses (drop_comma (py "，他出门了")).
Proof.
  assert (Hpre : Forall (fun c => ~ clause_lead c) (py "昨天"))
    by (repeat constructor; apply not_lead_by_value; reflexivity).
  assert (Hmid : Forall (fun c => c <> ch "时" /\ c <> newline)
                   (py "天气晴朗"))
    by (repeat constructor; discriminate).
  split; [exact Hpre | split; [exact Hmid |]].
  apply (strip_clauses_deletes_time_clause (py "，他出门了") Hpre Hmid).
Defined.

(** X4: a paired construction is deleted wherever it stands.  Behind text
    without a lead character, "虽然", a span with no "但" and no line
    break, and "但是" are deleted, the connector with them; stripping goes
    on behind them. *)
Theorem strip_clauses_deletes_paired_construction :
  forall pre mid rest : str,
    Forall (fun c => ~ clause_lead c) pre ->
    Forall (fun c => c <> ch "但" /\ c <> newline) mid ->
    strip_clauses (pre ++ py "虽然" ++ mid ++ py "但是" ++ rest)
    = pre ++ strip_clauses rest.
Proof.
  intros pre mid rest Hpre Hmid.
  rewrite (strip_clauses_copies_prefix _ Hpre).
  rewrite (strip_paired_construction_span rest Hmid). reflexivity.
Qed.

Lemma strip_clauses_deletes_paired_construction_witness :
  Forall (fun c => ~ clause_lead c) (py "今天")
  /\ Forall (fun c => c <> ch "但" /\ c <> newline) (py "下雨")
  /\ strip_clauses (py "今天" ++ py "虽然" ++ py "下雨" ++ py "但是"
                      ++ py "他出门了")
     = py "今天" ++ strip_clauses (py "他出门了").
Proof.
  assert (Hpre : Forall (fun c => ~ clause_lead c) (py "今天"))
    by (repeat constructor; apply not_lead_by_value; reflexivity).
  assert (Hmid : Forall (fun c => c <> ch "但" /\ c <> newline) (py "下雨"))
    by (repeat constructor; discriminate).
  split; [exact Hpre | split; [exact Hmid |]].
  apply (strip_clauses_deletes_paired_construction (py "他出门了") Hpre Hmid).
Defined.

(** The lazy [.*?] before a literal fails when the literal's first
    character does not come. *)
Lemma match_here_lazy_never (x : char) (p : list atom) (s : str) :
  Forall (fun c => c <> x) s ->
  match_here (DotStarLazy :: Lit x :: p) s = None.
Proof.
  induction 1 as [|c s Hc _ IH]; rewrite match_here_lazy; [reflexivity |].
  rewrite match_here_lit, IH. unfold eqb_char.
  destruct (N.eqb_spec c x) as [|_]; [contradiction |].
  destruct (c =? newline)%N; reflexivity.
Qed.

(** X5: an opener without its closer stays.  "当" with no "时" behind it in
    the sentence is copied, and so is "虽然" with no "但" behind it; in both
    cases stripping goes on behind the opener. *)
Theorem strip_clauses_keeps_unclosed_opener :
  (forall rest : str,
      Forall (fun c => c <> ch "时") rest ->
      strip_clauses (py "当" ++ rest) = py "当" ++ strip_clauses rest)
  /\ (forall rest : str,
         Forall (fun c => c <> ch "但") rest ->
         strip_clauses (py "虽然" ++ rest) = py "虽然" ++ strip_clauses rest).
Proof.
  split; intros rest Hrest.
  - change (py "当" ++ rest) with (ch "当" :: rest).
    unfold strip_clauses. rewrite sub_delete_copy; [reflexivity |].
    unfold filler_pattern.
    change (lits (py "当") ++ [DotStarLazy] ++ lits (py "时")
              ++ [OptLit (ch "，")])
      with (Lit (ch "当") :: DotStarLazy :: Lit (ch "时")
              :: [OptLit (ch "，")]).
    change (lits (py "尽管") ++ [DotStarLazy; OptLit (ch "，")])
      with (Lit (ch "尽") :: Lit (ch "管") :: DotStarLazy
              :: [OptLit (ch "，")]).
    change (lits (py "虽然") ++ [DotStarLazy] ++ lits (py "但是"))
      with (Lit (ch "虽") :: Lit (ch "然") :: DotStarLazy
              :: Lit (ch "但") :: [Lit (ch "是")]).
    rewrite !match_alts_cons, !match_here_lit.
    rewrite (match_here_lazy_never _ Hrest).
    reflexivity.
  - change (py "虽然" ++ rest) with (ch "虽" :: [ch "然"] ++ rest).
    unfold strip_clauses. rewrite sub_delete_copy.
    + fold (strip_clauses ([ch "然"] ++ rest)).
      rewrite strip_clauses_copies_prefix; [reflexivity |].
      repeat constructor. apply not_lead_by_value. reflexivity.
    + unfold filler_pattern.
      change (lits (py "当") ++ [DotStarLazy] ++ lits (py "时")
                ++ [OptLit (ch "，")])
        with (Lit (ch "当") :: DotStarLazy :: Lit (ch "时")
                :: [OptLit (ch "，")]).
      change (lits (py "尽管") ++ [DotStarLazy; OptLit (ch "，")])
        with (Lit (ch "尽") :: Lit (ch "管") :: DotStarLazy
                :: [OptLit (ch "，")]).
      change (lits (py "虽然") ++ [DotStarLazy] ++ lits (py "但是"))
        with (Lit (ch "虽") :: Lit (ch "然") :: DotStarLazy
                :: Lit (ch "但") :: [Lit (ch "是")]).
      rewrite !match_alts_cons.
      change ([ch "然"] ++ rest) with (ch "然" :: rest).
      rewrite !match_here_lit.
      rewrite (match_here_lazy_never _ Hrest).
      reflexivity.
Qed.

Lemma strip_clauses_keeps_unclosed_opener_witness :
  Forall (fun c => c <> ch "时") (py "天气晴朗")
  /\ strip_clauses (py "当" ++ py "天气晴朗")
     = py "当" ++ strip_clauses (py "天气晴朗").
Proof.
  assert (H : Forall (fun c => c <> ch "时") (py "天气晴朗"))
    by (repeat constructor; discriminate).
  split; [exact H |].
  apply (proj1 strip_clauses_keeps_unclosed_opener (py "天气晴朗") H).
Defined.

(** ** The output-building loop, as a whole *)

Lemma firstn_S_nth (kept : list str) (n : nat) :
  n < length kept -> firstn (S n) kept = firstn n kept ++ [nth n kept []].
Proof.
  revert n. induction kept as [|w kept IH]; intros n Hn; simpl in Hn; [lia |].
  destruct n as [|n]; [reflexivity |].
  change (firstn (S (S n)) (w :: kept)) with (w :: firstn (S n) kept).
  rewrite IH by lia. reflexivity.
Qed.

Lemma dedup_upto_In (kept : list str) (n : nat) (w : str) :
  n <= length kept ->
  In w (dedup_upto kept n) <-> In w (firstn n kept).
Proof.
  induction n as [|n IH]; intros Hn; [reflexivity |].
  rewrite dedup_upto_S, firstn_S_nth by lia. unfold dedup_step.
  specialize (IH ltac:(lia)).
  destruct ((0 <? n) && mem (nth (n - 1) kept []) connectors);
    [| destruct (mem (nth n kept []) (dedup_upto kept n)) eqn:E; cbn [negb]].
  - rewrite !in_app_iff, IH. reflexivity.
  - apply mem_In in E. rewrite in_app_iff, IH. split; [auto |].
    intros [H | [<- | []]]; [exact H |]. apply IH, E.
  - rewrite !in_app_iff, IH. reflexivity.
Qed.

Lemma dedup_upto_length (kept : list str) (n : nat) :
  length (dedup_upto kept n) <= n.
Proof.
  induction n as [|n IH]; [reflexivity |].
  rewrite dedup_upto_S. unfold dedup_step.
  destruct ((0 <? n) && mem (nth (n - 1) kept []) connectors);
    [| destruct (negb (mem (nth n kept []) (dedup_upto kept n)))];
    rewrite ?length_app; simpl; lia.
Qed.

(** X6: the output-building loop loses no token altogether and invents
    none.  A string is in the output iff it is among the kept tokens, and
    the output has at most as many tokens as were kept. *)
Theorem dedup_keeps_every_token_once_at_least :
  forall (kept : list str) (w : str),
    (In w (dedup kept) <-> In w kept)
    /\ length (dedup kept) <= length kept.
Proof.
  intros kept w. unfold dedup. split.
  - rewrite dedup_upto_In by lia. rewrite firstn_all. reflexivity.
  - apply dedup_upto_length.
Qed.

Lemma dedup_upto_NoDup (kept : list str) (n : nat) :
  Forall (fun w => ~ In w connectors) kept ->
  n <= length kept -> NoDup (dedup_upto kept n).
Proof.
  intros Hplain. induction n as [|n IH]; intros Hn; [constructor |].
  rewrite dedup_upto_S. unfold dedup_step.
  specialize (IH ltac:(lia)).
  assert (Hprev : (0 <? n) && mem (nth (n - 1) kept []) connectors = false).
  { destruct n as [|m]; [reflexivity |]. cbn [Nat.ltb Nat.leb andb].
    apply mem_not_In. rewrite Forall_forall in Hplain.
    apply Hplain, nth_In. lia. }
  rewrite Hprev.
  destruct (mem (nth n kept []) (dedup_upto kept n)) eqn:E; cbn [negb];
    [exact IH |].
  apply mem_not_In in E.
  apply NoDup_app; [exact IH | repeat constructor; intros [] |].
  intros x Hx [<- | []]. contradiction.
Qed.

(** X7: when none of the kept tokens is "但是" or "然而", the output holds
    every kept token exactly once. *)
Theorem dedup_without_connector_has_no_repeat :
  forall kept : list str,
    Forall (fun w => ~ In w connectors) kept ->
    NoDup (dedup kept) /\ (forall w, In w (dedup kept) <-> In w kept).
Proof.
  intros kept Hplain. split.
  - apply dedup_upto_NoDup; [exact Hplain | apply Nat.le_refl].
  - intros w. unfold dedup. rewrite dedup_upto_In by lia.
    rewrite firstn_all. reflexivity.
Qed.

Lemma dedup_without_connector_has_no_repeat_witness :
  Forall (fun w => ~ In w connectors) [py "电脑"; py "运行"; py "电脑"]
  /\ NoDup (dedup [py "电脑"; py "运行"; py "电脑"]).
Proof.
  assert (H : Forall (fun w => ~ In w connectors)
                [py "电脑"; py "运行"; py "电脑"]).
  { repeat constructor; intros [E | [E | []]]; discriminate E. }
  split; [exact H |].
  apply (proj1 (dedup_without_connector_has_no_repeat H)).
Defined.

Lemma dedup_upto_distinct (kept : list str) (n : nat) :
  NoDup kept -> n <= length kept -> dedup_upto kept n = firstn n kept.
Proof.
  intros Hnd. induction n as [|n IH]; intros Hn; [reflexivity |].
  rewrite dedup_upto_S, firstn_S_nth by lia. unfold dedup_step.
  rewrite IH by lia.
  destruct ((0 <? n) && mem (nth (n - 1) kept []) connectors);
    [reflexivity |].
  assert (Hnew : mem (nth n kept []) (firstn n kept) = false).
  { apply mem_not_In. intros Hin.
    assert (Hsk : skipn n kept = nth n kept [] :: skipn (S n) kept).
    { clear -Hn. revert n Hn. induction kept as [|w kept IHk]; intros n Hn;
        simpl in Hn; [lia |].
      destruct n as [|n]; [reflexivity |]. apply IHk. lia. }
    rewrite <- (firstn_skipn n kept), Hsk in Hnd.
    apply NoDup_remove_2 in Hnd. apply Hnd, in_or_app. left. exact Hin. }
  rewrite Hnew. reflexivity.
Qed.

(** X8: kept tokens that are pairwise different pass the output-building
    loop unchanged, connectors or not. *)
Theorem dedup_of_distinct_tokens_is_identity :
  forall kept : list str,
    NoDup kept ->
    dedup kept = kept /\ build_output kept = join kept.
Proof.
  intros kept Hnd.
  assert (H : dedup kept = kept).
  { unfold dedup. rewrite dedup_upto_distinct by (assumption || lia).
    apply firstn_all. }
  split; [exact H |].
  destruct kept as [|w kept]; [reflexivity |].
  unfold build_output. rewrite H. reflexivity.
Qed.

Lemma dedup_of_distinct_tokens_is_identity_witness :
  NoDup [py "问题"; py "但是"; py "电脑"]
  /\ dedup [py "问题"; py "但是"; py "电脑"]
     = [py "问题"; py "但是"; py "电脑"].
Proof.
  assert (H : NoDup [py "问题"; py "但是"; py "电脑"]).
  { repeat constructor; simpl; intros H;
      repeat (destruct H as [H | H]; [discriminate H |]); exact H. }
  split; [exact H |].
  apply (proj1 (dedup_of_distinct_tokens_is_identity H)).
Defined.

(** ** The condenser as a whole *)

(** X9: under the tokenizer contract the condenser returns a result for
    every sentence, and the result holds no character that the sentence
    does not hold. *)
Theorem condenser_adds_no_character :
  forall (T : Tokenizer) (sentence : str),
    Lossless T ->
    exists condensed,
      _condense_sentence sentence = Ok condensed
      /\ forall c, In c condensed -> In c sentence.
Proof.
  intros T sentence L.
  destruct (condense_Forall (Q := fun c => In c sentence) (sentence := sentence))
    as (condensed & Hrun & Hall).
  - apply Forall_forall. auto.
  - exists condensed. split; [exact Hrun |].
    apply Forall_forall. exact Hall.
Qed.

Lemma condenser_adds_no_character_witness :
  exists condensed,
    @_condense_sentence whole_text (py "当天气晴朗时，他出门了") = Ok condensed
    /\ forall c, In c condensed -> In c (py "当天气晴朗时，他出门了").
Proof.
  apply (@condenser_adds_no_character whole_text
           (py "当天气晴朗时，他出门了") whole_text_lossless).
Defined.

(** ** Substitution as a whole *)

(** X10: longest match first.  The scan over the sorted terms finds [o] iff
    [o] is a term of the table that the text has at the cursor and no term
    that the text has there is longer; it finds nothing iff the text has no
    term of the table there. *)
Theorem scan_finds_the_longest_term :
  forall (t : SynonymTable) (text : str) (i : nat),
    (forall o,
        scan text i (sorted_by_len_desc (keys t)) = Some o
        <-> longest_at t text i o)
    /\ (scan text i (sorted_by_len_desc (keys t)) = None
        <-> forall k, In k (keys t) -> startswith text k i = false).
Proof.
  intros t text i.
  pose proof (sorted_keys_by_descending_length t) as Hsorted.
  split.
  - intros o. split.
    + intros Hscan. apply scan_first_at in Hscan.
      apply (first_at_longest Hsorted Hscan).
    + intros Hlong.
      destruct (scan text i (sorted_by_len_desc (keys t))) as [o'|] eqn:E.
      * apply scan_first_at in E.
        rewrite (longest_at_unique Hlong (first_at_longest Hsorted E)).
        reflexivity.
      * apply scan_none_at in E. unfold none_at in E.
        rewrite Forall_forall in E. destruct Hlong as (Hin & Hm & _).
        apply sorted_by_len_desc_In in Hin. specialize (E _ Hin). congruence.
  - rewrite scan_none_at. unfold none_at. rewrite Forall_forall.
    split; intros H k Hk; apply H; apply sorted_by_len_desc_In; exact Hk.
Qed.

Section WholeSubstitution.

Context {T : Tokenizer}.

(** X11: a text none of whose tokens is a term of the table comes back
    unchanged, when its segmentation concatenates back to it. *)
Theorem substitute_without_terms_is_identity :
  forall (t : SynonymTable) (text : str),
    join (lcut text) = text ->
    Forall (fun w => ~ In w (keys t)) (lcut text) ->
    _replace_words t text = Ok text.
Proof.
  intros t text Hjoin Hnone. unfold _replace_words, replaced_tokens.
  rewrite replace_loop_copies.
  - simpl. rewrite Hjoin. reflexivity.
  - apply Forall_impl with (2 := Hnone). intros w. apply lookup_not_In_keys.
Qed.






End WholeSubstitution.

Lemma substitute_without_terms_is_identity_witness :
  join (@lcut whole_text (py "很强")) = py "很强"
  /\ Forall (fun w => ~ In w (keys ai_table)) (@lcut whole_text (py "很强"))
  /\ @_replace_words whole_text ai_table (py "很强") = Ok (py "很强").
Proof.
  assert (H : Forall (fun w => ~ In w (keys ai_table))
                (@lcut whole_text (py "很强"))).
  { repeat constructor. intros [E | [E | []]]; discriminate E. }
  split; [reflexivity | split; [exact H |]].
  apply (@substitute_without_terms_is_identity whole_text ai_table
           (py "很强") eq_refl H).
Defined.



(** ** Trimming *)

Lemma lstrip_no_lead_space (s : str) : no_lead_space (lstrip s).
Proof.
  induction s as [|c s IH]; simpl; [exact I |].
  destruct (isspace c) eqn:E; [exact IH | exact E].
Qed.

Lemma no_lead_space_lstrip (s : str) : no_lead_space s -> lstrip s = s.
Proof.
  destruct s as [|c s]; simpl; [reflexivity |]. intros ->. reflexivity.
Qed.

Lemma lstrip_blank_app (a s : str) : blank a -> lstrip (a ++ s) = lstrip s.
Proof.
  induction 1 as [|c a Hc _ IH]; simpl; [reflexivity |].
  rewrite Hc. exact IH.
Qed.

(** [lstrip] cuts a blank front off. *)
Lemma lstrip_decompose (s : str) :
  exists a, blank a /\ s = a ++ lstrip s.
Proof.
  induction s as [|c s (a & Ha & Hs)]; simpl.
  - exists []. split; [constructor | reflexivity].
  - destruct (isspace c) eqn:E.
    + exists (c :: a). split; [constructor; assumption |].
      simpl. f_equal. exact Hs.
    + exists []. split; [constructor | reflexivity].
Qed.

Lemma no_lead_space_app (s b : str) :
  no_lead_space (s ++ b) -> s <> [] -> no_lead_space s.
Proof. destruct s; [congruence | simpl; auto]. Qed.

Lemma blank_no_lead_space (s : str) : blank s -> no_lead_space s -> s = [].
Proof.
  destruct s as [|c s]; [reflexivity |].
  intros Hb Hn. inversion Hb. simpl in Hn. congruence.
Qed.

Lemma trimmed_strip (s : str) : trimmed s -> strip s = s.
Proof.
  intros [Hl Hr]. unfold strip, rstrip.
  rewrite (no_lead_space_lstrip _ Hl), (no_lead_space_lstrip _ Hr).
  apply rev_involutive.
Qed.

(** What [strip] returns has whitespace at neither end. *)
Lemma strip_trimmed (s : str) : trimmed (strip s).
Proof.
  unfold trimmed, strip, rstrip. rewrite rev_involutive.
  split; [| apply lstrip_no_lead_space].
  pose proof (lstrip_no_lead_space s) as Hu.
  destruct (lstrip_decompose (rev (lstrip s))) as (a & Ha & Hrev).
  apply (f_equal (@rev char)) in Hrev.
  rewrite rev_involutive, rev_app_distr in Hrev.
  destruct (rev (lstrip (rev (lstrip s)))) as [|c r] eqn:E; [exact I |].
  rewrite Hrev in Hu. exact Hu.
Qed.

Lemma strip_of_padded (a core b : str) :
  blank a -> blank b -> trimmed core -> core <> [] ->
  strip (a ++ core ++ b) = core.
Proof.
  intros Ha Hb [Hl Hr] Hne. unfold strip, rstrip.
  rewrite (lstrip_blank_app _ Ha).
  assert (Hlead : lstrip (core ++ b) = core ++ b).
  { apply no_lead_space_lstrip. destruct core; [congruence | exact Hl]. }
  rewrite Hlead, rev_app_distr, lstrip_blank_app.
  - rewrite (no_lead_space_lstrip _ Hr). apply rev_involutive.
  - apply Forall_rev. exact Hb.
Qed.

(** ** Lines of the dictionary *)

(** The cut at the first whitespace, when there is one. *)
Lemma split_ws1_from_cut (orig : str) (c : char) (rest cur : str) :
  whitespace_free orig -> isspace c = true ->
  split_ws1_from cur (orig ++ c :: rest) = [cur ++ orig; lstrip rest].
Proof.
  intros Horig Hc. revert cur.
  induction Horig as [|x orig Hx _ IH]; intros cur; simpl.
  - rewrite Hc, app_nil_r. reflexivity.
  - rewrite Hx, IH, <- app_assoc. reflexivity.
Qed.

Lemma split_ws1_from_whole (s cur : str) :
  whitespace_free s -> split_ws1_from cur s = [cur ++ s].
Proof.
  intros Hs. revert cur. induction Hs as [|x s Hx _ IH]; intros cur; simpl.
  - rewrite app_nil_r. reflexivity.
  - rewrite Hx, IH, <- app_assoc. reflexivity.
Qed.

(** A string is free of whitespace, or has a first whitespace character. *)
Lemma first_whitespace (s : str) :
  whitespace_free s
  \/ exists orig c rest,
      s = orig ++ c :: rest /\ whitespace_free orig /\ isspace c = true.
Proof.
  induction s as [|x s [IH | (orig & c & rest & -> & Ho & Hc)]].
  - left. constructor.
  - destruct (isspace x) eqn:E.
    + right. exists [], x, s. repeat split; [constructor | exact E].
    + left. constructor; assumption.
  - destruct (isspace x) eqn:E.
    + right. exists [], x, (orig ++ c :: rest).
      repeat split; [constructor | exact E].
    + right. exists (x :: orig), c, rest.
      repeat split; [constructor; assumption | exact Hc].
Qed.

(** The two fields of a trimmed line that has whitespace inside. *)
Lemma fields_of_trimmed_line (orig : str) (c : char) (rest : str) :
  trimmed (orig ++ c :: rest) -> whitespace_free orig -> isspace c = true ->
  orig <> [] /\ lstrip rest <> [] /\ trimmed (lstrip rest).
Proof.
  intros [Hl Hr] Horig Hc.
  assert (Hne : orig <> []).
  { intros ->. simpl in Hl. congruence. }
  split; [exact Hne |].
  destruct (lstrip_decompose rest) as (a & Ha & Hrest).
  rewrite rev_app_distr in Hr. cbn [rev] in Hr.
  rewrite Hrest, rev_app_distr, <- !app_assoc in Hr.
  assert (Hb : lstrip rest <> []).
  { intros E. rewrite E in Hr. cbn [rev app] in Hr.
    destruct (rev a) as [|x ra] eqn:Ea.
    - simpl in Hr. congruence.
    - simpl in Hr. apply Forall_rev in Ha. rewrite Ea in Ha.
      inversion Ha. congruence. }
  split; [exact Hb | split; [apply lstrip_no_lead_space |]].
  eapply no_lead_space_app; [exact Hr |].
  intros E. apply Hb. apply (f_equal (@rev char)) in E.
  rewrite rev_involutive in E. exact E.
Qed.

Lemma append_synonym_well_formed (orig replace : str) (t : SynonymTable) :
  orig <> [] -> whitespace_free orig ->
  replace <> [] -> strip replace = replace ->
  Forall entry_well_formed t ->
  Forall entry_well_formed (append_synonym orig replace t).
Proof.
  intros Ho Hw Hr Hs.
  induction 1 as [|[k vs] t (Hk1 & Hk2 & Hv1 & Hv2) Ht IH]; simpl.
  - constructor; [| constructor]. unfold entry_well_formed. simpl.
    split; [exact Ho | split; [exact Hw | split; [discriminate |]]].
    constructor; [split; assumption | constructor].
  - simpl in Hk1, Hk2, Hv1, Hv2.
    destruct (eqb orig k); constructor; auto; unfold entry_well_formed; simpl.
    + split; [exact Hk1 | split; [exact Hk2 | split]].
      * destruct vs; discriminate.
      * apply Forall_app. split; [exact Hv2 |].
        constructor; [split; assumption | constructor].
    + auto.
Qed.

Lemma load_line_well_formed (t : SynonymTable) (line : str) :
  Forall entry_well_formed t -> Forall entry_well_formed (load_line t line).
Proof.
  intros Ht. unfold load_line.
  destruct (nonempty (strip line)) eqn:Hne; [| exact Ht].
  pose proof (strip_trimmed line) as Htrim.
  unfold split_ws1.
  destruct (first_whitespace (strip line))
    as [Hfree | (orig & c & rest & Heq & Horig & Hc)].
  - rewrite split_ws1_from_whole by exact Hfree. exact Ht.
  - rewrite Heq in *. rewrite split_ws1_from_cut by assumption.
    destruct (@fields_of_trimmed_line orig c rest Htrim Horig Hc)
      as (Ho & Hr & Hrt).
    apply append_synonym_well_formed; auto.
    apply trimmed_strip, Hrt.
Qed.

(** X13: every entry of a table that the loader builds is well formed,
    whatever the source holds and however reading it ends.  The term is
    non-empty and holds no whitespace; the list of replacements is
    non-empty, and each replacement is non-empty with whitespace at neither
    end. *)
Theorem loaded_entries_are_well_formed :
  forall src : dict_source,
    Forall entry_well_formed (fst (load_synonyms src [])).
Proof.
  assert (Hfold : forall lines t,
             Forall entry_well_formed t ->
             Forall entry_well_formed (fold_left load_line lines t)).
  { induction lines as [|line lines IH]; intros t Ht; simpl; auto.
    apply IH, load_line_well_formed, Ht. }
  intros [e | lines [e|]]; simpl; try constructor; apply Hfold; constructor.
Qed.

Lemma lookup_append_synonym (orig replace k : str) (t : SynonymTable) :
  lookup k (append_synonym orig replace t)
  = if eqb k orig then
      Some (match lookup orig t with
            | Some vs => vs ++ [replace]
            | None => [replace]
            end)
    else lookup k t.
Proof.
  induction t as [|[k' vs] t IH]; simpl.
  - reflexivity.
  - destruct (eqb orig k') eqn:E1.
    + apply eqb_eq in E1. subst k'. simpl.
      destruct (eqb k orig); reflexivity.
    + simpl. destruct (eqb k k') eqn:E2.
      * apply eqb_eq in E2. subst k'.
        assert (eqb k orig = false) as ->; [| reflexivity].
        apply eqb_neq. apply eqb_neq in E1. congruence.
      * exact IH.
Qed.

Lemma load_line_keeps_first (t : SynonymTable) (line k r : str) :
  first_replacement k t = Ok r -> first_replacement k (load_line t line) = Ok r.
Proof.
  intros Hk. unfold load_line.
  destruct (nonempty (strip line)); [| exact Hk].
  destruct (split_ws1 (strip line)) as [|orig [|replace [|]]]; auto.
  unfold first_replacement in *. rewrite lookup_append_synonym.
  destruct (eqb k orig) eqn:E; [| exact Hk].
  apply eqb_eq in E. subst orig.
  destruct (lookup k t) as [[|r' vs]|]; try discriminate. exact Hk.
Qed.

(** X14: the first replacement loaded for a term stays the one in use.
    Once a term has a first replacement, no line read later changes it. *)
Theorem loader_keeps_first_replacement :
  forall (lines : list str) (t : SynonymTable) (k r : str),
    first_replacement k t = Ok r ->
    first_replacement k (fold_left load_line lines t) = Ok r.
Proof.
  induction lines as [|line lines IH]; intros t k r Hk; simpl; [exact Hk |].
  apply IH, load_line_keeps_first, Hk.
Qed.

Lemma loader_keeps_first_replacement_witness :
  first_replacement (py "智能") (fold_left load_line [py "智能 smart"] [])
  = Ok (py "smart")
  /\ first_replacement (py "智能")
       (fold_left load_line [py "智能 clever"; py "人工智能 AI"]
          (fold_left load_line [py "智能 smart"] []))
     = Ok (py "smart").
Proof.
  split; [reflexivity |].
  apply (loader_keeps_first_replacement
           [py "智能 clever"; py "人工智能 AI"]
           (fold_left load_line [py "智能 smart"] [])
           (py "智能") (r := py "smart")).
  reflexivity.
Defined.

(** X15: a line with two fields is read as an entry.  With whitespace of
    any kind and length around and between them, a term without whitespace
    and a replacement with whitespace at neither end make the loader append
    the replacement to the candidates of the term; the other terms keep
    their candidates. *)
Theorem load_line_reads_two_fields :
  forall (t : SynonymTable) (pad1 orig sep replace pad2 : str),
    blank pad1 -> blank pad2 -> blank sep -> sep <> [] ->
    orig <> [] -> whitespace_free orig ->
    replace <> [] -> trimmed replace ->
    load_line t (pad1 ++ orig ++ sep ++ replace ++ pad2)
    = append_synonym orig replace t
    /\ lookup orig (load_line t (pad1 ++ orig ++ sep ++ replace ++ pad2))
       = Some (match lookup orig t with
               | Some vs => vs ++ [replace]
               | None => [replace]
               end)
    /\ (forall k, k <> orig ->
                  lookup k (load_line t (pad1 ++ orig ++ sep ++ replace ++ pad2))
                  = lookup k t).
Proof.
  intros t pad1 orig sep replace pad2 Hp1 Hp2 Hsep Hsne Ho Hfree Hr Htrim.
  assert (Hload : load_line t (pad1 ++ orig ++ sep ++ replace ++ pad2)
                  = append_synonym orig replace t).
  { unfold load_line.
    destruct sep as [|c sep]; [congruence |]. inversion Hsep as [|? ? Hc Hs].
    subst.
    assert (Hcore : trimmed (orig ++ (c :: sep) ++ replace)).
    { destruct Htrim as [Hl Hrv]. split.
      - destruct orig as [|x orig]; [congruence |].
        inversion Hfree. assumption.
      - rewrite !rev_app_distr.
        destruct (rev replace) as [|x rr] eqn:E; [| exact Hrv].
        apply (f_equal (@rev char)) in E. rewrite rev_involutive in E.
        simpl in E. congruence. }
    replace (pad1 ++ orig ++ (c :: sep) ++ replace ++ pad2)
      with (pad1 ++ (orig ++ (c :: sep) ++ replace) ++ pad2)
      by (rewrite <- !app_assoc; reflexivity).
    rewrite strip_of_padded; auto; [| destruct orig; [congruence | discriminate]].
    assert (nonempty (orig ++ (c :: sep) ++ replace) = true) as ->
      by (destruct orig; [congruence | reflexivity]).
    unfold split_ws1. cbn [app].
    rewrite split_ws1_from_cut by assumption.
    rewrite (lstrip_blank_app _ Hs).
    rewrite (no_lead_space_lstrip _ (proj1 Htrim)). reflexivity. }
  rewrite Hload. split; [reflexivity | split].
  - rewrite lookup_append_synonym, eqb_refl. reflexivity.
  - intros k Hk. rewrite lookup_append_synonym.
    apply eqb_neq in Hk. rewrite Hk. reflexivity.
Qed.

Lemma load_line_reads_two_fields_witness :
  load_line ai_table (py " " ++ py "智能" ++ py "  " ++ py "clever" ++ py " ")
  = append_synonym (py "智能") (py "clever") ai_table
  /\ lookup (py "智能")
       (load_line ai_table
          (py " " ++ py "智能" ++ py "  " ++ py "clever" ++ py " "))
     = Some [py "smart"; py "clever"].
Proof.
  assert (Hpad : blank (py " ")) by (repeat constructor).
  assert (Hsep : blank (py "  ")) by (repeat constructor).
  assert (Hfree : whitespace_free (py "智能")) by (repeat constructor).
  assert (Htrim : trimmed (py "clever")) by (split; reflexivity).
  destruct (@load_line_reads_two_fields ai_table (py " ") (py "智能")
              (py "  ") (py "clever") (py " ") Hpad Hpad Hsep
              ltac:(discriminate) ltac:(discriminate) Hfree
              ltac:(discriminate) Htrim) as (H1 & H2 & _).
  split; [exact H1 | exact H2].
Defined.

(** X16: lines that are not entries change nothing.  A line of whitespace
    only is skipped, and so is a line that has no whitespace inside once it
    is trimmed: a single field. *)
Theorem load_line_ignores_other_lines :
  forall (t : SynonymTable) (line : str),
    (blank line -> load_line t line = t)
    /\ (whitespace_free (strip line) -> load_line t line = t).
Proof.
  intros t line. split.
  - intros Hblank. unfold load_line.
    destruct (nonempty (strip line)) eqn:E; [| reflexivity].
    apply strip_nonempty in E. apply Exists_exists in E.
    destruct E as (c & Hc & Hns).
    unfold blank in Hblank. rewrite Forall_forall in Hblank.
    specialize (Hblank _ Hc). congruence.
  - intros Hfree. unfold load_line, split_ws1.
    rewrite split_ws1_from_whole by exact Hfree.
    destruct (nonempty (strip line)); reflexivity.
Qed.

Lemma load_line_ignores_other_lines_witness :
  whitespace_free (strip (py " abc "))
  /\ load_line ai_table (py " abc ") = ai_table.
Proof.
  assert (H : whitespace_free (strip (py " abc ")))
    by (repeat constructor).
  split; [exact H |].
  apply (proj2 (load_line_ignores_other_lines ai_table (py " abc ")) H).
Defined.

(** ** The constructor *)

Lemma keys_append_synonym (orig replace : str) (t : SynonymTable) :
  keys (append_synonym orig replace t)
  = if contains orig t then keys t else keys t ++ [orig].
Proof.
  unfold contains, keys. induction t as [|[k vs] t IH]; simpl; [reflexivity |].
  destruct (eqb orig k); simpl; [reflexivity |].
  rewrite IH. destruct (lookup orig t); reflexivity.
Qed.

Lemma load_line_NoDup (t : SynonymTable) (line : str) :
  NoDup (keys t) -> NoDup (keys (load_line t line)).
Proof.
  intros Hnd. unfold load_line.
  destruct (nonempty (strip line)); [| exact Hnd].
  destruct (split_ws1 (strip line)) as [|orig [|replace [|]]]; auto.
  rewrite keys_append_synonym.
  destruct (contains orig t) eqn:E; [exact Hnd |].
  apply lookup_not_In_keys in E.
  apply NoDup_app; [exact Hnd | repeat constructor; intros [] |].
  intros k Hk [<- | []]. contradiction.
Qed.

Lemma loaded_keys_NoDup (lines : list str) (t : SynonymTable) :
  NoDup (keys t) -> NoDup (keys (fold_left load_line lines t)).
Proof.
  revert t. induction lines as [|line lines IH]; intros t Hnd; simpl; auto.
  apply IH, load_line_NoDup, Hnd.
Qed.

(** X17: the constructor registers with the tokenizer every term of the
    table that it loaded, each term once and each with the configured
    frequency, whatever the source holds and however reading it ends. *)
Theorem constructor_registers_each_term_once :
  forall (src : dict_source) (freq : N),
    exists self,
      fst (fst (ArticleProcessor_init src freq)) = Ok self
      /\ NoDup (map fst (snd (ArticleProcessor_init src freq)))
      /\ (forall w, In w (map fst (snd (ArticleProcessor_init src freq)))
                    <-> contains w (synonyms self) = true)
      /\ Forall (fun e => snd e = freq) (snd (ArticleProcessor_init src freq)).
Proof.
  intros src freq.
  assert (Hshape : exists t shown,
             load_synonyms src [] = (t, shown) /\ NoDup (keys t)).
  { destruct src as [e | lines [e|]]; simpl; eexists; eexists;
      (split; [reflexivity |]);
      try apply loaded_keys_NoDup; constructor. }
  destruct Hshape as (t & shown & Hload & Hnd).
  unfold ArticleProcessor_init. rewrite Hload. cbn [fst snd].
  exists {| synonyms := t; synonym_freq := freq |}.
  unfold _init_jieba. cbn [synonyms synonym_freq].
  rewrite map_map. cbn [fst]. rewrite map_id.
  split; [reflexivity | split; [exact Hnd | split]].
  - intros w. symmetry. apply lookup_In_keys.
  - apply Forall_forall. intros e He. apply in_map_iff in He.
    destruct He as (w & <- & _). reflexivity.
Qed.

(** X18: a processor that the constructor built does not raise on a missing
    first replacement.  Whatever the source holds and however reading it
    ends, substitution with the loaded table returns a result for every
    text, and so does [process] when the tagger tags every token. *)
Theorem constructed_processor_never_lacks_a_replacement :
  forall (T : Tokenizer) (src : dict_source) (freq : N),
    exists self,
      fst (fst (ArticleProcessor_init src freq)) = Ok self
      /\ (forall text, exists s, _replace_words (synonyms self) text = Ok s)
      /\ ((forall s, Forall (fun wp => snd wp <> []) (cut s)) ->
          forall text contrast,
            exists r, process (synonyms self) text contrast = Ok r).
Proof.
  intros T src freq.
  assert (Hshape : exists t shown,
             load_synonyms src [] = (t, shown) /\ has_replacements t).
  { destruct src as [e | lines [e|]]; simpl; eexists; eexists;
      (split; [reflexivity |]);
      try apply loaded_table_has_replacements; constructor. }
  destruct Hshape as (t & shown & Hload & Hwf).
  unfold ArticleProcessor_init. rewrite Hload. cbn [fst snd].
  exists {| synonyms := t; synonym_freq := freq |}. cbn [synonyms].
  split; [reflexivity | split].
  - intros text. apply replace_words_total, Hwf.
  - intros Htags text contrast.
    destruct (para_loop_total t (split_nl text)
                (transform_total Htags Hwf) ([], [])) as [[pp prs] Hrun].
    eexists. apply process_loop, Hrun.
Qed.

Lemma constructed_processor_never_lacks_a_replacement_witness :
  exists self,
    fst (fst (ArticleProcessor_init failing_source 1000)) = Ok self
    /\ exists r,
        @process whole_text (synonyms self) (py "人工智能。") true = Ok r.
Proof.
  destruct (@constructed_processor_never_lacks_a_replacement whole_text
              failing_source 1000) as (self & Hself & _ & Hprocess).
  exists self. split; [exact Hself |].
  apply (Hprocess whole_text_tagged (py "人工智能。") true).
Defined.

(** ** Whole texts *)

Lemma blank_strip_empty (s : str) : blank s -> nonempty (strip s) = false.
Proof.
  intros Hb. destruct (nonempty (strip s)) eqn:E; [| reflexivity].
  apply strip_nonempty, Exists_exists in E. destruct E as (c & Hc & Hns).
  unfold blank in Hb. rewrite Forall_forall in Hb.
  specialize (Hb _ Hc). congruence.
Qed.

Lemma join_nl_cons (x : str) (xs : list str) :
  xs <> [] -> join_nl (x :: xs) = x ++ newline :: join_nl xs.
Proof. destruct xs; [congruence | reflexivity]. Qed.

Lemma join_nl_app (xs ys : list str) :
  xs <> [] -> ys <> [] ->
  join_nl (xs ++ ys) = join_nl xs ++ newline :: join_nl ys.
Proof.
  intros Hx Hy. induction xs as [|x xs IH]; [congruence |].
  destruct xs as [|x' xs].
  - simpl app. rewrite join_nl_cons by exact Hy. reflexivity.
  - change ((x :: x' :: xs) ++ ys) with (x :: (x' :: xs) ++ ys).
    rewrite !join_nl_cons by discriminate.
    rewrite IH by discriminate. rewrite <- app_assoc. reflexivity.
Qed.

Lemma split_nl_from_newline (a b cur : str) :
  split_nl_from cur (a ++ newline :: b) = split_nl_from cur a ++ split_nl b.
Proof.
  revert cur. induction a as [|c a IH]; intros cur; [reflexivity |].
  cbn [app split_nl_from].
  destruct (eqb_char c newline); rewrite IH; reflexivity.
Qed.

Section WholeTexts.

Context {T : Tokenizer}.

Lemma para_loop_blank (t : SynonymTable) (s : str) :
  blank s ->
  forall cur pp prs,
    blank cur ->
    for_each (para_step t) (split_nl_from cur s) (pp, prs)
    = Ok (pp ++ map (fun _ => []) (split_nl_from cur s), prs).
Proof.
  induction 1 as [|c s Hc _ IH]; intros cur pp prs Hcur.
  - cbn [split_nl_from for_each map]. unfold para_step.
    rewrite (blank_strip_empty Hcur). reflexivity.
  - cbn [split_nl_from]. destruct (eqb_char c newline).
    + cbn [for_each map]. unfold para_step at 1.
      rewrite (blank_strip_empty Hcur). cbn [bind].
      rewrite IH by constructor. rewrite <- app_assoc. reflexivity.
    + apply IH. apply Forall_app. split; [exact Hcur | repeat constructor].
      exact Hc.
Qed.

Lemma join_nl_empty_lines (s cur : str) :
  join_nl (map (fun _ : str => @nil char) (split_nl_from cur s))
  = filter (fun c => eqb_char c newline) s.
Proof.
  revert cur. induction s as [|c s IH]; intros cur; [reflexivity |].
  cbn [split_nl_from filter]. destruct (eqb_char c newline) eqn:E.
  - cbn [map]. rewrite join_nl_cons.
    + rewrite IH. unfold eqb_char in E. apply N.eqb_eq in E. subst c.
      reflexivity.
    + intros Hnil. apply map_eq_nil in Hnil.
      apply (split_nl_from_not_nil _ _ Hnil).
  - apply IH.
Qed.

(** X19: a text of whitespace only comes back as its line breaks alone.
    Every paragraph becomes an empty line, the other whitespace is dropped,
    and no contrast pair is made; neither the condenser nor the
    substitution is called, so nothing can raise. *)
Theorem process_blank_text_keeps_line_breaks_only :
  forall (t : SynonymTable) (text : str),
    blank text ->
    process t text true
    = Ok (TextAndPairs (filter (fun c => eqb_char c newline) text) [])
    /\ process t text false
       = Ok (Text (filter (fun c => eqb_char c newline) text)).
Proof.
  intros t text Hblank.
  pose proof (@para_loop_blank t text Hblank [] [] [] (Forall_nil _)) as Hrun.
  cbn [app] in Hrun. fold (split_nl text) in Hrun.
  rewrite (process_loop t text true Hrun), (process_loop t text false Hrun).
  unfold split_nl. rewrite join_nl_empty_lines. auto.
Qed.

Lemma process_inv (t : SynonymTable) (text : str) (contrast : bool)
  (r : processed) :
  process t text contrast = Ok r ->
  exists pp prs,
    for_each (para_step t) (split_nl text) ([], []) = Ok (pp, prs)
    /\ r = if contrast then TextAndPairs (join_nl pp) prs
           else Text (join_nl pp).
Proof.
  unfold process.
  destruct (for_each (para_step t) (split_nl text) ([], []))
    as [[pp prs]|e]; [| discriminate].
  cbn [bind]. intros Hr. exists pp, prs. split; [reflexivity |].
  destruct contrast; congruence.
Qed.

Lemma sentence_loop_shift (t : SynonymTable) (sents : list (str * char)) :
  forall st st',
    for_each (sentence_step t) sents st = Ok st' ->
    exists outs prs,
      new_sentences st' = new_sentences st ++ outs
      /\ contrast_pairs st' = contrast_pairs st ++ prs
      /\ forall st0, exists st0',
          for_each (sentence_step t) sents st0 = Ok st0'
          /\ new_sentences st0' = new_sentences st0 ++ outs
          /\ contrast_pairs st0' = contrast_pairs st0 ++ prs.
Proof.
  induction sents as [|s sents IH]; intros st st' Hrun; cbn [for_each] in *.
  - injection Hrun as <-. exists [], []. rewrite !app_nil_r.
    repeat split. intros st0. exists st0. rewrite !app_nil_r. auto.
  - unfold sentence_step at 1 in Hrun.
    destruct (transform t (strip (fst s))) as [replaced|e] eqn:Etr;
      [| discriminate].
    cbn [bind] in Hrun. apply IH in Hrun.
    destruct Hrun as (outs & prs & Hnew & Hpairs & Hshift).
    cbn [new_sentences contrast_pairs] in Hnew, Hpairs.
    exists ((replaced ++ [snd s]) :: outs).
    exists ((if nonempty (strip (fst s)) && nonempty replaced
             then [(strip (fst s) ++ [snd s], replaced ++ [snd s])]
             else []) ++ prs).
    split; [rewrite Hnew, <- app_assoc; reflexivity | split].
    + rewrite Hpairs.
      destruct (nonempty (strip (fst s)) && nonempty replaced);
        rewrite <- ?app_assoc; reflexivity.
    + intros st0. unfold sentence_step at 1. rewrite Etr. cbn [bind].
      destruct (Hshift
                  {| new_sentences := new_sentences st0 ++ [replaced ++ [snd s]];
                     buffer := [];
                     contrast_pairs :=
                       if nonempty (strip (fst s)) && nonempty replaced
                       then contrast_pairs st0
                            ++ [(strip (fst s) ++ [snd s], replaced ++ [snd s])]
                       else contrast_pairs st0 |})
        as (st0' & Hrun0 & Hnew0 & Hpairs0).
      exists st0'. split; [exact Hrun0 |].
      cbn [new_sentences contrast_pairs] in Hnew0, Hpairs0.
      split; [rewrite Hnew0, <- app_assoc; reflexivity |].
      rewrite Hpairs0.
      destruct (nonempty (strip (fst s)) && nonempty replaced);
        rewrite <- ?app_assoc; reflexivity.
Qed.

Lemma para_loop_shift (t : SynonymTable) (paras : list str) :
  forall pp prs pp' prs',
    for_each (para_step t) paras (pp, prs) = Ok (pp', prs') ->
    exists dpp dprs,
      pp' = pp ++ dpp /\ prs' = prs ++ dprs
      /\ length dpp = length paras
      /\ forall pp0 prs0,
          for_each (para_step t) paras (pp0, prs0)
          = Ok (pp0 ++ dpp, prs0 ++ dprs).
Proof.
  induction paras as [|para paras IH]; intros pp prs pp' prs' Hrun;
    cbn [for_each] in *.
  - injection Hrun as <- <-. exists [], []. rewrite !app_nil_r.
    repeat split. intros pp0 prs0. rewrite !app_nil_r. reflexivity.
  - rewrite para_step_sentences in Hrun.
    destruct (for_each (sentence_step t) (sentences para)
                {| new_sentences := []; buffer := []; contrast_pairs := prs |})
      as [st'|e] eqn:Esent; [| discriminate].
    cbn [bind] in Hrun.
    destruct (sentence_loop_shift t _ _ Esent)
      as (outs & dprs1 & Hnew & Hpairs & Hshift).
    cbn [new_sentences contrast_pairs app] in Hnew, Hpairs.
    rewrite Hnew, Hpairs in Hrun. apply IH in Hrun.
    destruct Hrun as (dpp & dprs & -> & -> & Hlen & Hrest).
    exists (join outs :: dpp), (dprs1 ++ dprs).
    rewrite <- !app_assoc. repeat split; [simpl; lia |].
    intros pp0 prs0. rewrite para_step_sentences.
    destruct (Hshift {| new_sentences := []; buffer := [];
                        contrast_pairs := prs0 |})
      as (st0' & -> & Hnew0 & Hpairs0).
    cbn [new_sentences contrast_pairs app] in Hnew0, Hpairs0.
    cbn [bind]. rewrite Hnew0, Hpairs0, Hrest, <- !app_assoc. reflexivity.
Qed.

(** X20: [process] handles a text line by line.  When it returns for the
    text before a line break and for the text behind it, it returns for the
    whole the two outputs with the line break between them, and the pairs
    of the first part followed by those of the second; when it raises on
    the first part it raises the same on the whole. *)
Theorem process_composes_over_line_break :
  forall (t : SynonymTable) (a b : str),
    (forall oa pa ob pb,
        process t a true = Ok (TextAndPairs oa pa) ->
        process t b true = Ok (TextAndPairs ob pb) ->
        process t (a ++ newline :: b) true
        = Ok (TextAndPairs (oa ++ newline :: ob) (pa ++ pb))
        /\ process t (a ++ newline :: b) false
           = Ok (Text (oa ++ newline :: ob)))
    /\ (forall e contrast,
           process t a contrast = Raised e ->
           process t (a ++ newline :: b) contrast = Raised e).
Proof.
  intros t a b. split.
  - intros oa pa ob pb Ha Hb.
    apply process_inv in Ha. destruct Ha as (ppa & prsa & Hra & [= -> ->]).
    apply process_inv in Hb. destruct Hb as (ppb & prsb & Hrb & [= -> ->]).
    destruct (para_loop_shift t _ _ _ Hra)
      as (da & dpa & Hda & Hdpa & Hla & _).
    destruct (para_loop_shift t _ _ _ Hrb)
      as (db & dpb & Hdb & Hdpb & Hlb & Hshift).
    cbn [app] in Hda, Hdpa, Hdb, Hdpb. subst da dpa db dpb.
    assert (Hrun : for_each (para_step t) (split_nl (a ++ newline :: b))
                     ([], [])
                   = Ok (ppa ++ ppb, prsa ++ prsb)).
    { unfold split_nl. rewrite split_nl_from_newline, for_each_app.
      fold (split_nl a). rewrite Hra. cbn [bind]. apply Hshift. }
    rewrite (process_loop t _ true Hrun), (process_loop t _ false Hrun).
    rewrite join_nl_app; [auto | |].
    + intros ->. simpl in Hla. symmetry in Hla.
      apply length_zero_iff_nil in Hla.
      apply (split_nl_from_not_nil _ _ Hla).
    + intros ->. simpl in Hlb. symmetry in Hlb.
      apply length_zero_iff_nil in Hlb.
      apply (split_nl_from_not_nil _ _ Hlb).
  - intros e contrast. unfold process, split_nl.
    rewrite split_nl_from_newline, for_each_app.
    destruct (for_each (para_step t) (split_nl_from [] a) ([], []))
      as [[pp prs]|e']; cbn [bind].
    + destruct contrast; discriminate.
    + auto.
Qed.

End WholeTexts.

Lemma process_blank_text_keeps_line_breaks_only_witness :
  blank (py " 
  ")
  /\ @process whole_text ai_table (py " 
  ") false = Ok (Text [newline]).
Proof.
  assert (H : blank (py " 
  ")) by (repeat constructor).
  split; [exact H |].
  apply (proj2 (@process_blank_text_keeps_line_breaks_only whole_text
                  ai_table _ H)).
Defined.

Lemma process_composes_over_line_break_witness :
  @process whole_text ai_table (py "人工智能。") true
  = Ok (TextAndPairs (py "AI。") [(py "人工智能。", py "AI。")])
  /\ @process whole_text ai_table (py "智能！") true
     = Ok (TextAndPairs (py "smart！") [(py "智能！", py "smart！")])
  /\ @process whole_text ai_table (py "人工智能。" ++ newline :: py "智能！")
       true
     = Ok (TextAndPairs (py "AI。" ++ newline :: py "smart！")
             ([(py "人工智能。", py "AI。")]
              ++ [(py "智能！", py "smart！")])).
Proof.
  split; [reflexivity | split; [reflexivity |]].
  apply (proj1 (proj1 (@process_composes_over_line_break whole_text ai_table
                         (py "人工智能。") (py "智能！"))
                  _ _ _ _ eq_refl eq_refl)).
Defined.

(** ** Terminal marks and pairs of the output *)

Lemma marks_of_app (a b : str) : marks_of (a ++ b) = marks_of a ++ marks_of b.
Proof. apply filter_app. Qed.

Lemma marks_of_plain (s : str) : Forall plain s -> marks_of s = [].
Proof.
  unfold marks_of. induction 1 as [|c s [Hc _] _ IH]; simpl; [reflexivity |].
  rewrite Hc. exact IH.
Qed.

Lemma marks_of_sentences (s cur : str) :
  map snd (sentences_from cur s) = marks_of s.
Proof.
  unfold marks_of. revert cur.
  induction s as [|c s IH]; intros cur; simpl; [reflexivity |].
  destruct (is_terminal c); simpl; rewrite IH; reflexivity.
Qed.

Lemma Forall2_strengthen {A B : Type} (P : A -> Prop) (R R' : A -> B -> Prop)
  (l : list A) (l' : list B) :
  (forall a b, P a -> R a b -> R' a b) ->
  Forall P l -> Forall2 R l l' -> Forall2 R' l l'.
Proof.
  intros Himp Hl H2. induction H2 as [|a b l l' Hab _ IH]; [constructor |].
  inversion Hl; subst. constructor; auto.
Qed.

Section MarksAndPairs.

Context {T : Tokenizer}.

Lemma sentence_outputs_marks {L : Lossless T} (t : SynonymTable)
  (sents : list (str * char)) (outs : list str) :
  plain_replacements t ->
  Forall (fun rm => Forall plain (fst rm) /\ is_terminal (snd rm) = true)
    sents ->
  Forall2 (sentence_output t) sents outs ->
  marks_of (join outs) = map snd sents.
Proof.
  intros Hplain Hsents Houts.
  induction Houts as [|s out sents outs (replaced & Htr & ->) _ IH];
    [reflexivity |].
  inversion Hsents as [|? ? [Hraw Hm] Hrest]; subst.
  destruct s as [raw m]. cbn [fst snd] in *.
  destruct (transform_plain Hplain (strip_Forall Hraw)) as (r & Hr & Hrp).
  assert (Heq : Ok r = Ok replaced) by (rewrite <- Htr; symmetry; exact Hr).
  injection Heq as <-.
  unfold join. cbn [concat map]. fold (join outs).
  rewrite !marks_of_app, (marks_of_plain Hrp), (IH Hrest).
  unfold marks_of. cbn [filter app]. rewrite Hm. reflexivity.
Qed.

(** X21: the terminal marks of every paragraph come out as they went in,
    the same marks in the same order, when the tokenizer honours its
    contract and no first replacement of the table holds a terminal mark or
    a line break. *)
Theorem process_keeps_the_marks_in_order :
  forall (t : SynonymTable) (text : str) (contrast : bool),
    Lossless T ->
    plain_replacements t ->
    exists r,
      process t text contrast = Ok r
      /\ Forall2 (fun pin pout => marks_of pout = marks_of pin)
           (split_nl text) (split_nl (text_of r)).
Proof.
  intros t text contrast L Hplain.
  pose proof (transform_total cut_tagged (plain_has_replacements Hplain))
    as Htotal.
  destruct (para_loop_total t (split_nl text) Htotal ([], []))
    as [[pp prs] Hrun].
  destruct (para_loop_spec t _ _ _ Hrun) as (outs & per & Houts & _ & Hpp & _).
  simpl in Hpp. subst pp.
  destruct (paragraph_outputs_count Hplain (split_nl_pieces text) Houts)
    as [_ Hnl].
  assert (Hsplit : split_nl (join_nl outs) = outs).
  { apply split_nl_join_nl; [| exact Hnl].
    intros ->. apply Forall2_length in Houts.
    pose proof (@split_nl_from_not_nil text []) as Hne.
    unfold split_nl in Houts. destruct (split_nl_from [] text);
      [congruence | discriminate]. }
  exists (if contrast then TextAndPairs (join_nl outs) prs
          else Text (join_nl outs)).
  split; [apply process_loop, Hrun |].
  assert (Htext : text_of (if contrast then TextAndPairs (join_nl outs) prs
                           else Text (join_nl outs)) = join_nl outs)
    by (destruct contrast; reflexivity).
  rewrite Htext, Hsplit.
  apply Forall2_strengthen
    with (P := Forall (fun c => c <> newline)) (R := paragraph_output t);
    [| apply split_nl_pieces | exact Houts].
  intros para out Hpara (souts & Hsouts & ->).
  rewrite (sentence_outputs_marks Hplain
             (sentences_from_plain Hpara (Forall_nil _)) Hsouts).
  apply marks_of_sentences.
Qed.

Lemma sentences_of_text_count (s cur : str) :
  length (flat_map sentences (split_nl_from cur s))
  = count_marks cur + count_marks s.
Proof.
  revert cur. induction s as [|c s IH]; intros cur.
  - cbn [split_nl_from flat_map]. rewrite app_nil_r.
    unfold sentences. rewrite sentences_from_count.
    unfold count_marks. simpl. lia.
  - cbn [split_nl_from]. destruct (eqb_char c newline) eqn:E.
    + cbn [flat_map]. rewrite length_app, IH.
      unfold sentences. rewrite sentences_from_count.
      unfold eqb_char in E. apply N.eqb_eq in E. subst c.
      unfold count_marks. simpl. lia.
    + rewrite IH, count_marks_app.
      change (c :: s) with ([c] ++ s). rewrite count_marks_app. lia.
Qed.

Lemma sentences_of_text_marks (paras : list str) :
  Forall (fun rm => is_terminal (snd rm) = true) (flat_map sentences paras).
Proof.
  induction paras as [|para paras IH]; [constructor |].
  cbn [flat_map]. apply Forall_app. split; [| exact IH].
  apply Forall_impl
    with (2 := sentences_from_no_terminal para (Forall_nil _)).
  intros rm [_ H]. exact H.
Qed.

Lemma sentence_pairs_shape (t : SynonymTable) (sents : list (str * char))
  (per : list (list (str * str))) :
  Forall (fun rm => is_terminal (snd rm) = true) sents ->
  Forall2 (sentence_pairs t) sents per ->
  Forall pair_shape (concat per) /\ length (concat per) <= length sents.
Proof.
  intros Hsents Hper.
  induction Hper as [|s ps sents per (replaced & Htr & ->) _ IH].
  - split; [constructor | reflexivity].
  - inversion Hsents as [|? ? Hm Hrest]; subst.
    destruct (IH Hrest) as [IHs IHl]. cbn [concat].
    destruct (nonempty (strip (fst s))) eqn:Eo;
      [destruct (nonempty replaced) eqn:Er |]; cbn [andb app].
    + split; [| simpl; lia].
      constructor; [| exact IHs].
      exists (strip (fst s)), replaced, (snd s). cbn [fst snd].
      repeat split; auto.
      * intros E. rewrite E in Eo. discriminate.
      * apply trimmed_strip, strip_trimmed.
      * intros E. rewrite E in Er. discriminate.
    + split; [exact IHs | simpl; lia].
    + split; [exact IHs | simpl; lia].
Qed.

(** X22: what a contrast pair looks like.  When [process] returns pairs,
    each pair is a non-empty sentence with whitespace at neither end and a
    non-empty transformed sentence, both followed by the same terminal mark;
    and there are at most as many pairs as the text has terminal marks. *)
Theorem process_pairs_end_with_their_mark :
  forall (t : SynonymTable) (text out : str) (pairs : list (str * str)),
    process t text true = Ok (TextAndPairs out pairs) ->
    Forall pair_shape pairs /\ length pairs <= count_marks text.
Proof.
  intros t text out pairs Hrun.
  apply process_inv in Hrun. destruct Hrun as (pp & prs & Hrun & [= -> ->]).
  destruct (para_loop_spec t _ _ _ Hrun) as (outs & per & _ & Hper & _ & Hprs).
  simpl in Hprs. subst prs.
  destruct (sentence_pairs_shape
              (sentences_of_text_marks (split_nl text)) Hper)
    as [Hshape Hlen].
  split; [exact Hshape |].
  unfold split_nl in Hlen. rewrite sentences_of_text_count in Hlen.
  exact Hlen.
Qed.

End MarksAndPairs.

Lemma process_keeps_the_marks_in_order_witness :
  exists r,
    @process whole_text ai_table (py "人工智能。很！") false = Ok r
    /\ Forall2 (fun pin pout => marks_of pout = marks_of pin)
         (split_nl (py "人工智能。很！")) (split_nl (text_of r)).
Proof.
  apply (@process_keeps_the_marks_in_order whole_text ai_table
           (py "人工智能。很！") false whole_text_lossless).
  repeat constructor; eexists; eexists; (split; [reflexivity |]);
    repeat constructor; discriminate.
Defined.

Lemma process_pairs_end_with_their_mark_witness :
  @process whole_text ai_table (py "人工智能。很！") true
  = Ok (TextAndPairs (py "AI。！") [(py "人工智能。", py "AI。")])
  /\ Forall pair_shape [(py "人工智能。", py "AI。")]
  /\ length [(py "人工智能。", py "AI。")] <= count_marks (py "人工智能。很！").
Proof.
  split; [reflexivity |].
  apply (@process_pairs_end_with_their_mark whole_text ai_table
           (py "人工智能。很！") (py "AI。！")
           [(py "人工智能。", py "AI。")] eq_refl).
Defined.

(** ** Length of what the condenser keeps *)

Lemma keep_rule_length (wp : str * str) : keep_rule wp -> 2 <= length (fst wp).
Proof.
  intros [[_ Hlen] | [-> | ->]]; [exact Hlen | |]; repeat constructor.
Qed.

Lemma kept_by_rule_lengths (words : list (str * str)) (kept : list str) :
  kept_by_rule words kept -> Forall (fun w => 2 <= length w) kept.
Proof.
  induction 1 as [|wp rest kept Hrule _ IH|wp rest kept _ _ IH];
    [constructor | | exact IH].
  constructor; [apply keep_rule_length, Hrule | exact IH].
Qed.

Lemma join_of_long_tokens (xs : list str) :
  Forall (fun w => 2 <= length w) xs -> xs = [] \/ 2 <= length (join xs).
Proof.
  destruct 1 as [|w xs Hw _]; [left; reflexivity | right].
  unfold join. simpl. rewrite length_app. lia.
Qed.

(** X23: the condenser keeps no single character.  Every token that the
    selection keeps has at least two characters, so the condensed sentence
    is empty or has at least two characters. *)
Theorem condenser_keeps_no_single_character :
  forall (T : Tokenizer) (sentence : str),
    Forall (fun wp => snd wp <> []) (cut (strip_clauses sentence)) ->
    exists kept condensed,
      select_kept (cut (strip_clauses sentence)) [] = Ok kept
      /\ Forall (fun w => 2 <= length w) kept
      /\ _condense_sentence sentence = Ok condensed
      /\ (condensed = [] \/ 2 <= length condensed).
Proof.
  intros T sentence Htags.
  destruct (select_kept_by_rule Htags []) as (kept & Hk & Hrule).
  simpl in Hk. pose proof (kept_by_rule_lengths Hrule) as Hlen.
  exists kept, (build_output kept).
  split; [exact Hk | split; [exact Hlen | split]].
  - unfold _condense_sentence. rewrite Hk. reflexivity.
  - destruct kept as [|w kept]; [left; reflexivity |].
    unfold build_output.
    destruct (join_of_long_tokens (xs := dedup (w :: kept))) as [E | H].
    + rewrite Forall_forall in *. intros x Hx. apply Hlen.
      unfold dedup in Hx. apply dedup_upto_In in Hx; [| lia].
      rewrite firstn_all in Hx. exact Hx.
    + rewrite E. left. reflexivity.
    + right. exact H.
Qed.

Lemma condenser_keeps_no_single_character_witness :
  exists kept condensed,
    select_kept
      (@cut (fixed_cut [py "电脑"; py "但是"; py "很"])
         (strip_clauses (py "电脑但是很"))) [] = Ok kept
    /\ Forall (fun w => 2 <= length w) kept
    /\ @_condense_sentence (fixed_cut [py "电脑"; py "但是"; py "很"])
         (py "电脑但是很") = Ok condensed
    /\ (condensed = [] \/ 2 <= length condensed).
Proof.
  apply (@condenser_keeps_no_single_character
           (fixed_cut [py "电脑"; py "但是"; py "很"]) (py "电脑但是很")).
  repeat constructor; discriminate.
Defined.

(** ** Where the characters of the output come from *)

Lemma split_nl_from_Forall (Q : char -> Prop) (s cur : str) :
  Forall Q cur -> Forall Q s -> Forall (Forall Q) (split_nl_from cur s).
Proof.
  intros Hcur Hs. revert cur Hcur.
  induction Hs as [|c s Hc _ IH]; intros cur Hcur; cbn [split_nl_from].
  - repeat constructor. exact Hcur.
  - destruct (eqb_char c newline).
    + constructor; [exact Hcur | apply IH; constructor].
    + apply IH, Forall_app. split; [exact Hcur | repeat constructor; exact Hc].
Qed.

Lemma split_nl_from_two_pieces (s cur : str) :
  2 <= length (split_nl_from cur s) -> In newline s.
Proof.
  revert cur. induction s as [|c s IH]; intros cur; cbn [split_nl_from].
  - simpl. lia.
  - unfold eqb_char. destruct (N.eqb_spec c newline) as [-> | _].
    + intros _. left. reflexivity.
    + intros H. right. apply (IH _ H).
Qed.

Lemma join_nl_Forall (Q : char -> Prop) (xs : list str) :
  Forall (Forall Q) xs -> (2 <= length xs -> Q newline) ->
  Forall Q (join_nl xs).
Proof.
  induction 1 as [|x xs Hx Hxs IH]; intros Hnl; [constructor |].
  destruct xs as [|y xs]; [exact Hx |].
  rewrite join_nl_cons by discriminate.
  assert (Hq : Q newline) by (apply Hnl; simpl; lia).
  apply Forall_app. split; [exact Hx |].
  constructor; [exact Hq |]. apply IH. intros _. exact Hq.
Qed.

Lemma sentences_from_Forall (Q : char -> Prop) (s cur : str) :
  Forall Q cur -> Forall Q s ->
  Forall (fun rm => Forall Q (fst rm) /\ Q (snd rm)) (sentences_from cur s).
Proof.
  intros Hcur Hs. revert cur Hcur.
  induction Hs as [|c s Hc _ IH]; intros cur Hcur; cbn [sentences_from];
    [constructor |].
  destruct (is_terminal c).
  - constructor; [split; assumption | apply IH; constructor].
  - apply IH, Forall_app. split; [exact Hcur | repeat constructor; exact Hc].
Qed.

Section Provenance.

Context {T : Tokenizer} {L : Lossless T}.

Variable Q : char -> Prop.
Variable t : SynonymTable.

Hypothesis Hwf : has_replacements t.
Hypothesis Htable : forall c, in_first_replacement t c -> Q c.

Lemma first_replacement_Forall (k r : str) :
  first_replacement k t = Ok r -> Forall Q r.
Proof.
  unfold first_replacement.
  destruct (lookup k t) as [[|r' vs]|] eqn:E; try discriminate.
  intros [= <-]. apply lookup_Some_In in E.
  apply Forall_forall. intros c Hc. apply Htable. exists k, r', vs. auto.
Qed.

Lemma replace_loop_Forall (text : str) (words : list str) :
  Forall (Forall Q) words ->
  forall acc i acc' i',
    Forall (Forall Q) acc ->
    for_each (replace_step t text) words (acc, i) = Ok (acc', i') ->
    Forall (Forall Q) acc'.
Proof.
  induction 1 as [|w ws Hw _ IH]; intros acc i acc' i' Hacc;
    cbn [for_each].
  - intros [= <- <-]. exact Hacc.
  - unfold replace_step at 1.
    destruct (contains w t).
    + destruct (scan text i (sorted_by_len_desc (keys t))) as [o|].
      * destruct (first_replacement o t) as [r|e] eqn:Er; [| discriminate].
        cbn [bind]. apply IH, Forall_app. split; [exact Hacc |].
        repeat constructor. apply (first_replacement_Forall _ Er).
      * destruct (first_replacement w t) as [r|e] eqn:Er; [| discriminate].
        cbn [bind]. apply IH, Forall_app. split; [exact Hacc |].
        repeat constructor. apply (first_replacement_Forall _ Er).
    + cbn [bind]. apply IH, Forall_app. split; [exact Hacc |].
      repeat constructor. exact Hw.
Qed.

Lemma transform_Forall (orig : str) :
  Forall Q orig -> exists r, transform t orig = Ok r /\ Forall Q r.
Proof.
  intros Horig. unfold transform.
  destruct (condense_Forall Horig) as (condensed & -> & Hc). cbn [bind].
  unfold _replace_words, replaced_tokens.
  destruct (replace_loop_total condensed (lcut condensed) Hwf ([], 0))
    as [[acc i] Hrun].
  rewrite Hrun. cbn [bind fst]. eexists. split; [reflexivity |].
  apply Forall_join.
  eapply replace_loop_Forall; [| | exact Hrun]; [| constructor].
  apply Forall_join. rewrite lcut_join. exact Hc.
Qed.

Lemma sentence_outputs_Forall (sents : list (str * char)) (outs : list str) :
  Forall (fun rm => Forall Q (fst rm) /\ Q (snd rm)) sents ->
  Forall2 (sentence_output t) sents outs ->
  Forall Q (join outs).
Proof.
  intros Hsents Houts.
  induction Houts as [|s out sents outs (replaced & Htr & ->) _ IH];
    [constructor |].
  inversion Hsents as [|? ? [Hraw Hm] Hrest]; subst.
  destruct s as [raw m]. cbn [fst snd] in *.
  destruct (transform_Forall (strip_Forall Hraw)) as (r & Hr & Hrq).
  assert (Heq : Ok r = Ok replaced) by (rewrite <- Htr; symmetry; exact Hr).
  injection Heq as <-.
  unfold join. cbn [concat]. fold (join outs).
  rewrite !Forall_app. split; [split |]; [exact Hrq | | exact (IH Hrest)].
  repeat constructor. exact Hm.
Qed.

Lemma paragraph_outputs_Forall (paras outs : list str) :
  Forall (Forall Q) paras ->
  Forall2 (paragraph_output t) paras outs ->
  Forall (Forall Q) outs.
Proof.
  intros Hparas Houts.
  induction Houts as [|para out paras outs (souts & Hs & ->) _ IH];
    [constructor |].
  inversion Hparas as [|? ? Hpara Hrest]; subst.
  constructor; [| exact (IH Hrest)].
  eapply sentence_outputs_Forall; [| exact Hs].
  apply sentences_from_Forall; [constructor | exact Hpara].
Qed.

End Provenance.

(** X24: [process] makes up no character.  When the tokenizer honours its
    contract and every term of the table has a replacement, [process]
    returns a text, and every character of it occurs in the input text or
    in the first replacement of a term of the table; with an empty table
    every character of the output occurs in the input. *)
Theorem process_output_characters_have_a_source :
  forall (T : Tokenizer) (t : SynonymTable) (text : str) (contrast : bool),
    Lossless T ->
    has_replacements t ->
    exists r,
      process t text contrast = Ok r
      /\ (forall c, In c (text_of r) ->
                    In c text \/ in_first_replacement t c)
      /\ (t = [] -> forall c, In c (text_of r) -> In c text).
Proof.
  intros T t text contrast L Hwf.
  pose proof (transform_total cut_tagged Hwf) as Htotal.
  destruct (para_loop_total t (split_nl text) Htotal ([], []))
    as [[pp prs] Hrun].
  destruct (para_loop_spec t _ _ _ Hrun) as (outs & per & Houts & _ & Hpp & _).
  simpl in Hpp. subst pp.
  exists (if contrast then TextAndPairs (join_nl outs) prs
          else Text (join_nl outs)).
  split; [apply process_loop, Hrun |].
  assert (Htext : text_of (if contrast then TextAndPairs (join_nl outs) prs
                           else Text (join_nl outs)) = join_nl outs)
    by (destruct contrast; reflexivity).
  rewrite Htext.
  assert (Hsrc : forall c, In c (join_nl outs) ->
                           In c text \/ in_first_replacement t c).
  { apply Forall_forall.
    apply join_nl_Forall.
    - apply (paragraph_outputs_Forall
               (Q := fun c => In c text \/ in_first_replacement t c)
               Hwf (fun c H => or_intror H)) with (paras := split_nl text);
        [| exact Houts].
      apply split_nl_from_Forall; [constructor |].
      apply Forall_forall. intros c Hc. left. exact Hc.
    - intros Hlen. left. apply (split_nl_from_two_pieces text []).
      pose proof (Forall2_length Houts) as Hl. unfold split_nl in Hl.
      rewrite Hl. exact Hlen. }
  split; [exact Hsrc |].
  intros -> c Hc. destruct (Hsrc c Hc) as [H | (k & r & rest & [] & _)].
  exact H.
Qed.

Lemma process_output_characters_have_a_source_witness :
  exists r,
    @process whole_text ai_table (py "人工智能。很！") false = Ok r
    /\ (forall c, In c (text_of r) ->
                  In c (py "人工智能。很！") \/ in_first_replacement ai_table c)
    /\ (ai_table = [] ->
        forall c, In c (text_of r) -> In c (py "人工智能。很！")).
Proof.
  apply (@process_output_characters_have_a_source whole_text ai_table
           (py "人工智能。很！") false whole_text_lossless).
  repeat constructor; discriminate.
Defined.
